(** * Node edit and path synchronisation (NodeModal)

    A shallow embedding of [src/features/modals/NodeModal/index.tsx]:
    the row normaliser, the JSON path formatter, the coercion of edited
    text, the diff of an edit session against the rows of a node, and the
    save handler that patches the parsed document and writes it back.

    The first part models the pieces of the ECMAScript runtime the file
    relies on (numbers, [Number], [String], property access, [JSON.parse],
    [JSON.stringify]); the second part is the component itself.

    Modelling conventions.
    - A string is a sequence of code units; the model keeps the code units
      below 256 (one [ascii] each).
    - A number is an IEEE 754 binary64 value ([spec_float] with precision
      53 and maximal exponent 1024).
    - An object is the ordered list of its own enumerable properties.
      The values of the model are those of a parsed document; the
      built-in functions and prototype objects are not among them. A
      read [target[k]] that finds [k] on a built-in prototype
      ([JS.inherited]) and an assignment that reaches the inherited
      setter of [__proto__] ([JS.runs_setter]) are therefore outside the
      modelled domain, and a statement whose truth depends on such a
      read or assignment excludes it by a hypothesis. Where the code
      builds a fresh object from primitive values (the row normaliser,
      the seeding of the session) the setter is modelled as it runs.
    - [JSON.parse] returns a fresh tree without sharing, so the in-place
      assignments of the save handler are modelled by rebuilding the tree
      along the path that was walked.
    - The file is an ECMAScript module, hence strict code: an assignment
      to a property of a primitive value throws a TypeError.
    - The stores and the component state form one world; every call to
      a collaborator is also recorded in a trace, so that a statement
      can say which calls were made. *)

From Stdlib Require Import ZArith List String Ascii Bool Lia Sorted.
From Stdlib Require Import SpecFloat DecimalString DecimalFacts DecimalPos DecimalN.
From stdpp Require Import gmap strings list.

Set Warnings "-register-all".
Local Open Scope Z_scope.

(** ** Numbers *)

Module JSNumber.

(** The Number type of ECMAScript: binary64. *)
Definition number : Type := spec_float.

Definition prec : Z := 53.
Definition emax : Z := 1024.

Definition NaN : number := S754_nan.
Definition Infinity (neg : bool) : number := S754_infinity neg.
Definition zero (neg : bool) : number := S754_zero neg.

(** [Number.isNaN]. *)
Definition isNaN (x : number) : bool :=
  match x with S754_nan => true | _ => false end.

(** Sameness of two number values as bit patterns (one NaN). *)
Definition same (x y : number) : bool :=
  match x, y with
  | S754_nan, S754_nan => true
  | S754_infinity a, S754_infinity b => Bool.eqb a b
  | S754_zero a, S754_zero b => Bool.eqb a b
  | S754_finite a m e, S754_finite b m' e' =>
      Bool.eqb a b && Pos.eqb m m' && Z.eqb e e'
  | _, _ => false
  end.

(** The binary64 value nearest to [p / q], ties to even
    (RoundMVResult). *)
Definition round_ratio (neg : bool) (p q : positive) : number :=
  SFdiv prec emax (S754_finite neg p 0) (S754_finite false q 0).

(** The binary64 value nearest to [d * 10 ^ sc]. *)
Definition round_decimal (neg : bool) (d : N) (sc : Z) : number :=
  match d with
  | N0 => S754_zero neg
  | Npos p =>
      if 0 <=? sc
      then round_ratio neg (p * Z.to_pos (10 ^ sc)) 1
      else round_ratio neg p (Z.to_pos (10 ^ (- sc)))
  end.

Definition of_N (n : N) : number := round_decimal false n 0.

(** *** StringToNumber (ECMA-262, 7.1.4.1.1) *)

(** StrWhiteSpaceChar, restricted to code units below 256: TAB, LF, VT,
    FF, CR, SP and NBSP. *)
Definition is_white_space (c : ascii) : bool :=
  let n := nat_of_ascii c in
  ((9 <=? n) && (n <=? 13) || (n =? 32) || (n =? 160))%nat.

Fixpoint trim_start (l : list ascii) : list ascii :=
  match l with
  | c :: l' => if is_white_space c then trim_start l' else l
  | [] => []
  end.

Definition trim (l : list ascii) : list ascii :=
  rev (trim_start (rev (trim_start l))).

(** The value of a digit in the given radix, when it is one. *)
Definition digit_value (radix : N) (c : ascii) : option N :=
  (let n := N_of_ascii c in
   let v :=
     if (48 <=? n) && (n <=? 57) then Some (n - 48)
     else if (97 <=? n) && (n <=? 122) then Some (n - 87)
     else if (65 <=? n) && (n <=? 90) then Some (n - 55)
     else None in
   match v with
   | Some d => if d <? radix then Some d else None
   | None => None
   end)%N.

(** The leading digits of [l] folded into [acc], their count, and what
    follows them. *)
Fixpoint take_digits (radix : N) (l : list ascii) (acc : N) (cnt : Z)
  : N * Z * list ascii :=
  match l with
  | c :: l' =>
      match digit_value radix c with
      | Some d => take_digits radix l' (acc * radix + d)%N (cnt + 1)
      | None => (acc, cnt, l)
      end
  | [] => (acc, cnt, [])
  end.

(** NonDecimalIntegerLiteral after its two-character prefix. *)
Definition radix_literal (radix : N) (l : list ascii) : number :=
  match take_digits radix l 0%N 0 with
  | (v, cnt, []) => if 0 <? cnt then of_N v else NaN
  | _ => NaN
  end.

(** ExponentPart, or nothing; [None] when what is left is neither. *)
Definition exponent_part (l : list ascii) : option Z :=
  match l with
  | [] => Some 0
  | c :: l' =>
      if (Ascii.eqb c "e" || Ascii.eqb c "E")%bool then
        let '(neg, l'') :=
          match l' with
          | "-"%char :: r => (true, r)
          | "+"%char :: r => (false, r)
          | _ => (false, l')
          end in
        match take_digits 10 l'' 0%N 0 with
        | (v, cnt, []) =>
            if 0 <? cnt
            then Some (if neg then - Z.of_N v else Z.of_N v)
            else None
        | _ => None
        end
      else None
  end.

(** StrUnsignedDecimalLiteral. *)
Definition unsigned_decimal (neg : bool) (l : list ascii) : number :=
  if String.eqb (string_of_list_ascii l) "Infinity" then Infinity neg
  else
    let '(ip, icnt, r1) := take_digits 10 l 0%N 0 in
    let '(d, fcnt, r2) :=
      match r1 with
      | "."%char :: r => take_digits 10 r ip 0
      | _ => (ip, 0, r1)
      end in
    if (icnt =? 0) && (fcnt =? 0) then NaN
    else
      match exponent_part r2 with
      | Some e => round_decimal neg d (e - fcnt)
      | None => NaN
      end.

Definition StringToNumber (s : string) : number :=
  match trim (list_ascii_of_string s) with
  | [] => zero false
  | "0"%char :: "x"%char :: l | "0"%char :: "X"%char :: l => radix_literal 16 l
  | "0"%char :: "o"%char :: l | "0"%char :: "O"%char :: l => radix_literal 8 l
  | "0"%char :: "b"%char :: l | "0"%char :: "B"%char :: l => radix_literal 2 l
  | "-"%char :: l => unsigned_decimal true l
  | "+"%char :: l => unsigned_decimal false l
  | l => unsigned_decimal false l
  end.

(** *** Number::toString, radix 10 (ECMA-262, 6.1.6.1.20) *)

Definition digits_of (n : N) : string :=
  NilZero.string_of_uint (N.to_uint n).

Fixpoint zeros (n : nat) : string :=
  match n with
  | O => EmptyString
  | S n' => String "0" (zeros n')
  end.

(** [10 ^ n <= p / q]. *)
Definition ge_pow10 (p q : Z) (n : Z) : bool :=
  if 0 <=? n then 10 ^ n * q <=? p else q <=? p * 10 ^ (- n).

Fixpoint raise_pow10 (fuel : nat) (p q : Z) (n : Z) : Z :=
  match fuel with
  | O => n
  | S fuel' =>
      if ge_pow10 p q (n + 1) then raise_pow10 fuel' p q (n + 1) else n
  end.

(** The [n] with [10 ^ (n - 1) <= p / q < 10 ^ n]. *)
Definition decimal_exponent (p q : Z) : Z :=
  let start := (Z.log2 p - Z.log2 q - 1) * 30102 / 100000 - 1 in
  raise_pow10 8 p q start + 1.

(** Step 5 for the positive finite [x = p / q]: the digits [s], their
    count [k] kept as small as possible, and the exponent [n], choosing
    for the last digit the value closest to [x]. The search tries
    [k = k0, k0 + 1, ...]; seventeen digits always suffice. *)
Fixpoint shortest (fuel : nat) (x : number) (p q : Z) (n0 : Z) (k : Z)
  : N * Z :=
  let sc := n0 - k in
  let P := if 0 <=? sc then p else p * 10 ^ (- sc) in
  let Q := if 0 <=? sc then q * 10 ^ sc else q in
  let lo := P / Q in
  let r := P mod Q in
  let pick (s : Z) : N * Z :=
    if s =? 10 ^ k then (1%N, n0 + 1) else (Z.to_N s, n0) in
  if r =? 0 then pick lo
  else
    match same (round_decimal false (Z.to_N lo) sc) x,
          same (round_decimal false (Z.to_N (lo + 1)) sc) x with
    | true, true =>
        match r ?= Q - r with
        | Lt => pick lo
        | Gt => pick (lo + 1)
        | Eq => if Z.even lo then pick lo else pick (lo + 1)
        end
    | true, false => pick lo
    | false, true => pick (lo + 1)
    | false, false =>
        match fuel with
        | O => pick lo
        | S fuel' => shortest fuel' x p q n0 (k + 1)
        end
    end.

(** Steps 6 to 15: the layout of the digits. *)
Definition layout (s : N) (n : Z) : string :=
  let ds := digits_of s in
  let k := Z.of_nat (String.length ds) in
  if (k <=? n) && (n <=? 21) then
    ds +:+ zeros (Z.to_nat (n - k))
  else if (0 <? n) && (n <=? 21) then
    substring 0 (Z.to_nat n) ds +:+ "." +:+
    substring (Z.to_nat n) (Z.to_nat (k - n)) ds
  else if (-6 <? n) && (n <=? 0) then
    "0." +:+ zeros (Z.to_nat (- n)) +:+ ds
  else
    let e := n - 1 in
    let sign := if e <? 0 then "-" else "+" in
    let mant :=
      if k =? 1 then ds
      else substring 0 1 ds +:+ "." +:+ substring 1 (Z.to_nat (k - 1)) ds in
    mant +:+ "e" +:+ sign +:+ digits_of (Z.to_N (Z.abs e)).

Definition positive_to_string (m : positive) (e : Z) : string :=
  let p := if 0 <=? e then Zpos m * 2 ^ e else Zpos m in
  let q := if 0 <=? e then 1 else 2 ^ (- e) in
  let '(s, n) :=
    shortest 17 (S754_finite false m e) p q (decimal_exponent p q) 1 in
  layout s n.

Definition NumberToString (x : number) : string :=
  match x with
  | S754_nan => "NaN"
  | S754_zero _ => "0"
  | S754_infinity neg => if neg then "-Infinity" else "Infinity"
  | S754_finite neg m e =>
      (if neg then "-" else EmptyString) +:+ positive_to_string m e
  end.

End JSNumber.

(** ** Values, property access and assignment *)

Module JS.
Import JSNumber.

(** The primitive values a field row holds and an edit produces. *)
Inductive scalar : Type :=
| SNull
| SBool (b : bool)
| SNum (n : number)
| SStr (s : string).

(** A language value as far as a parsed document needs it. An array
    element that was never written (a hole) reads as undefined and is
    kept as [VUndefined]. *)
Inductive value : Type :=
| VUndefined
| VNull
| VBool (b : bool)
| VNum (n : number)
| VStr (s : string)
| VArr (elems : list value)
| VObj (props : list (string * value)).

Definition of_scalar (s : scalar) : value :=
  match s with
  | SNull => VNull
  | SBool b => VBool b
  | SNum n => VNum n
  | SStr s => VStr s
  end.

Inductive exn : Type := SyntaxError | TypeError | RangeError.

(** The completion of an evaluation: a value or a thrown exception. *)
Inductive result (A : Type) : Type :=
| Val (a : A)
| Throw (e : exn).
Arguments Val {A} a.
Arguments Throw {A} e.

(** [String(v)] and the conversion of a template literal, on a
    primitive. *)
Definition ToString (v : scalar) : string :=
  match v with
  | SNull => "null"
  | SBool true => "true"
  | SBool false => "false"
  | SNum n => NumberToString n
  | SStr s => s
  end.

(** ToNumber on a primitive. *)
Definition ToNumber (v : scalar) : number :=
  match v with
  | SNull => zero false
  | SBool true => of_N 1
  | SBool false => zero false
  | SNum n => n
  | SStr s => StringToNumber s
  end.

(** Truthiness of an optional string ([row.key], [!row.key]): absent
    and empty are both falsy. *)
Definition truthy_key (k : option string) : option string :=
  match k with
  | Some EmptyString => None
  | Some s => Some s
  | None => None
  end.

(** *** Property keys *)

(** The array index a property key denotes, when it is one: the
    canonical decimal text of an integer below [2^32 - 1]. *)
Definition array_index (k : string) : option N :=
  match take_digits 10 (list_ascii_of_string k) 0%N 0 with
  | (i, cnt, []) =>
      if (0 <? cnt) && (i <? 4294967295)%N && String.eqb (digits_of i) k
      then Some i else None
  | _ => None
  end.

(** *** Ordinary objects: own properties in enumeration order *)

Fixpoint obj_lookup (k : string) (o : list (string * value)) : option value :=
  match o with
  | [] => None
  | (k', v) :: o' => if String.eqb k k' then Some v else obj_lookup k o'
  end.

Fixpoint obj_replace (k : string) (v : value) (o : list (string * value))
  : list (string * value) :=
  match o with
  | [] => []
  | (k', v') :: o' =>
      if String.eqb k k' then (k', v) :: o'
      else (k', v') :: obj_replace k v o'
  end.

(** A new index key goes before the first key that is no index or a
    larger one. *)
Fixpoint obj_insert_index (i : N) (k : string) (v : value)
  (o : list (string * value)) : list (string * value) :=
  match o with
  | [] => [(k, v)]
  | (k', v') :: o' =>
      match array_index k' with
      | Some j =>
          if (j <? i)%N then (k', v') :: obj_insert_index i k v o'
          else (k, v) :: o
      | None => (k, v) :: o
      end
  end.

(** The property [k] of an ordinary object set to [v]: an existing
    property keeps its place; a new index key is placed among the
    indices in ascending order, any other new key comes last. This is
    what [JSON.parse] does with a member, whatever its name, and what an
    assignment [o[k] = v] does unless it reaches an inherited setter
    ([runs_setter], [plain_set] below). *)
Definition obj_set (k : string) (v : value) (o : list (string * value))
  : list (string * value) :=
  match obj_lookup k o with
  | Some _ => obj_replace k v o
  | None =>
      match array_index k with
      | Some i => obj_insert_index i k v o
      | None => o ++ [(k, v)]
      end
  end.

(** *** Reading [target[k]] *)

(** The own properties of [target] are looked up first; [get] gives what
    the code reads wherever [inherited target k], defined below, is
    false. *)
Definition get (target : value) (k : string) : result value :=
  match target with
  | VUndefined | VNull => Throw TypeError
  | VBool _ | VNum _ => Val VUndefined
  | VStr s =>
      match array_index k with
      | Some i =>
          match String.get (N.to_nat i) s with
          | Some c => Val (VStr (String c EmptyString))
          | None => Val VUndefined
          end
      | None =>
          if String.eqb k "length"
          then Val (VNum (of_N (N.of_nat (String.length s))))
          else Val VUndefined
      end
  | VArr l =>
      match array_index k with
      | Some i => Val (default VUndefined (l !! N.to_nat i))
      | None =>
          if String.eqb k "length"
          then Val (VNum (of_N (N.of_nat (length l))))
          else Val VUndefined
      end
  | VObj o => Val (default VUndefined (obj_lookup k o))
  end.

(** *** Names found on the built-in prototypes *)

(** The string-keyed properties of [Object.prototype] (ECMA-262, 20.1.3
    and B.2.2). All are writable data properties but [__proto__], which
    is an accessor. *)
Definition Object_prototype : list string :=
  [ "constructor"; "hasOwnProperty"; "isPrototypeOf"; "propertyIsEnumerable";
    "toLocaleString"; "toString"; "valueOf"; "__proto__";
    "__defineGetter__"; "__defineSetter__"; "__lookupGetter__";
    "__lookupSetter__" ].

(** Those of [Array.prototype] (23.1.3). *)
Definition Array_prototype : list string :=
  [ "at"; "concat"; "constructor"; "copyWithin"; "entries"; "every"; "fill";
    "filter"; "find"; "findIndex"; "findLast"; "findLastIndex"; "flat";
    "flatMap"; "forEach"; "includes"; "indexOf"; "join"; "keys";
    "lastIndexOf"; "length"; "map"; "pop"; "push"; "reduce"; "reduceRight";
    "reverse"; "shift"; "slice"; "some"; "sort"; "splice"; "toLocaleString";
    "toReversed"; "toSorted"; "toSpliced"; "toString"; "unshift"; "values";
    "with" ].

(** Those of [String.prototype] (22.1.3 and B.2.2). *)
Definition String_prototype : list string :=
  [ "at"; "charAt"; "charCodeAt"; "codePointAt"; "concat"; "constructor";
    "endsWith"; "includes"; "indexOf"; "isWellFormed"; "lastIndexOf";
    "length"; "localeCompare"; "match"; "matchAll"; "normalize"; "padEnd";
    "padStart"; "repeat"; "replace"; "replaceAll"; "search"; "slice";
    "split"; "startsWith"; "substring"; "toLocaleLowerCase";
    "toLocaleUpperCase"; "toLowerCase"; "toString"; "toUpperCase";
    "toWellFormed"; "trim"; "trimEnd"; "trimStart"; "valueOf";
    "substr"; "anchor"; "big"; "blink"; "bold"; "fixed"; "fontcolor";
    "fontsize"; "italics"; "link"; "small"; "strike"; "sub"; "sup";
    "trimLeft"; "trimRight" ].

(** Those of [Number.prototype] (21.1.3) and [Boolean.prototype]
    (20.3.3). *)
Definition Number_prototype : list string :=
  [ "constructor"; "toExponential"; "toFixed"; "toLocaleString";
    "toPrecision"; "toString"; "valueOf" ].

Definition Boolean_prototype : list string :=
  [ "constructor"; "toString"; "valueOf" ].

(** Whether [k] names an own property of [target]. *)
Definition has_own (target : value) (k : string) : bool :=
  match target with
  | VObj o => match obj_lookup k o with Some _ => true | None => false end
  | VArr l =>
      match array_index k with
      | Some i => (N.to_nat i <? length l)%nat
      | None => String.eqb k "length"
      end
  | VStr s =>
      match array_index k with
      | Some i => (N.to_nat i <? String.length s)%nat
      | None => String.eqb k "length"
      end
  | _ => false
  end.

(** The names on the prototype chain of [target]. *)
Definition prototype_names (target : value) : list string :=
  match target with
  | VUndefined | VNull => []
  | VBool _ => Boolean_prototype ++ Object_prototype
  | VNum _ => Number_prototype ++ Object_prototype
  | VStr _ => String_prototype ++ Object_prototype
  | VArr _ => Array_prototype ++ Object_prototype
  | VObj _ => Object_prototype
  end.

Definition named_in (names : list string) (k : string) : bool :=
  existsb (String.eqb k) names.

(** [target[k]] finds [k] on a built-in prototype: the code reads a
    built-in function or prototype object there. *)
Definition inherited (target : value) (k : string) : bool :=
  negb (has_own target k) && named_in (prototype_names target) k.

(** *** Writing [target[k] = v] in strict code *)

(** The integer a number denotes when it is a valid array length. *)
Definition array_length_of (n : number) : option N :=
  match n with
  | S754_zero _ => Some 0%N
  | S754_finite false m e =>
      let len :=
        if 0 <=? e then Some (Zpos m * 2 ^ e)
        else if Zpos m mod 2 ^ (- e) =? 0 then Some (Zpos m / 2 ^ (- e))
        else None in
      match len with
      | Some z => if z <? 4294967296 then Some (Z.to_N z) else None
      | None => None
      end
  | _ => None
  end.

Definition arr_set_length (len : N) (l : list value) : list value :=
  take (N.to_nat len) l ++ replicate (N.to_nat len - length l) VUndefined.

Definition arr_set_index (i : N) (v : value) (l : list value) : list value :=
  if (N.to_nat i <? length l)%nat then <[N.to_nat i := v]> l
  else l ++ replicate (N.to_nat i - length l) VUndefined ++ [v].

(** The module is strict code, so an assignment to a property of a
    primitive throws, as it does on undefined and null. On an array an
    index key writes the element (growing the array), [length] resizes
    it, and any other key adds a property that serialisation to JSON
    does not show. On an object the property is written. [assign] gives
    what the code does wherever [runs_setter target k], defined below,
    is false. *)
Definition assign (target : value) (k : string) (v : scalar) : result value :=
  match target with
  | VUndefined | VNull | VBool _ | VNum _ | VStr _ => Throw TypeError
  | VArr l =>
      match array_index k with
      | Some i => Val (VArr (arr_set_index i (of_scalar v) l))
      | None =>
          if String.eqb k "length" then
            match array_length_of (ToNumber v) with
            | Some len => Val (VArr (arr_set_length len l))
            | None => Throw RangeError
            end
          else Val target
      end
  | VObj o => Val (VObj (obj_set k (of_scalar v) o))
  end.

(** [target[k] = v] reaches the setter of [Object.prototype.__proto__]:
    no own property is written, nothing is thrown on a primitive, and a
    null [v] takes the prototype off an object. On an array [assign]
    keeps the elements either way, which is all that serialisation
    shows; on an object or a primitive [assign] gives what the code
    does wherever [runs_setter target k] is false. *)
Definition runs_setter (target : value) (k : string) : bool :=
  String.eqb k "__proto__" && negb (has_own target k) &&
  match target with
  | VBool _ | VNum _ | VStr _ | VObj _ => true
  | _ => false
  end.

(** A fresh ordinary object while it is built: its own properties, and
    whether its prototype is still [Object.prototype]. *)
Record plain : Type := {
  own : list (string * value);
  has_prototype : bool
}.

Definition empty_plain : plain := {| own := []; has_prototype := true |}.

(** [obj[k] = v] on such an object, for a primitive [v]. The key
    [__proto__] is handed to the inherited setter as long as the object
    has its prototype: null takes the prototype off, any other primitive
    is ignored. Once the prototype is gone the key is a key like any
    other. *)
Definition plain_set (k : string) (v : scalar) (obj : plain) : plain :=
  if String.eqb k "__proto__" && has_prototype obj then
    match v with
    | SNull => {| own := own obj; has_prototype := false |}
    | _ => obj
    end
  else {| own := obj_set k (of_scalar v) (own obj);
          has_prototype := has_prototype obj |}.

Definition is_container (v : value) : bool :=
  match v with VArr _ | VObj _ => true | _ => false end.

(** [Array.prototype.join] on an array of strings. *)
Fixpoint join (sep : string) (l : list string) : string :=
  match l with
  | [] => EmptyString
  | [x] => x
  | x :: l' => x +:+ sep +:+ join sep l'
  end.

End JS.

(** ** JSON text *)

Module JSON.
Import JSNumber JS.

Definition dquote : ascii := "034"%char.
Definition backslash : ascii := "092"%char.
Definition newline : string := String "010"%char EmptyString.

Definition hex_digit (n : N) : ascii :=
  if (n <? 10)%N then ascii_of_N (48 + n) else ascii_of_N (87 + n).

(** *** JSON.stringify(v, null, 2) *)

(** One code unit inside QuoteJSONString. *)
Definition quote_char (c : ascii) : string :=
  let n := N_of_ascii c in
  if (n =? 8)%N then "\b"
  else if (n =? 9)%N then "\t"
  else if (n =? 10)%N then "\n"
  else if (n =? 12)%N then "\f"
  else if (n =? 13)%N then "\r"
  else if (n =? 34)%N then String backslash (String dquote EmptyString)
  else if (n =? 92)%N then String backslash (String backslash EmptyString)
  else if (n <? 32)%N then
    "\u00" +:+ String (hex_digit (n / 16)) (String (hex_digit (n mod 16)) EmptyString)
  else String c EmptyString.

Fixpoint quote_chars (s : string) : string :=
  match s with
  | EmptyString => EmptyString
  | String c s' => quote_char c +:+ quote_chars s'
  end.

Definition QuoteJSONString (s : string) : string :=
  String dquote (quote_chars s) +:+ String dquote EmptyString.

(** The text between the brackets of a non-empty array or object at
    the given indentation. *)
Definition wrap (open close indent : string) (items : list string) : string :=
  match items with
  | [] => open +:+ close
  | _ =>
      let inner := indent +:+ "  " in
      open +:+ newline +:+ inner +:+
      join ("," +:+ newline +:+ inner) items +:+
      newline +:+ indent +:+ close
  end.

(** SerializeJSONProperty with a gap of two spaces; [None] stands for
    the undefined result. *)
Fixpoint serialize (indent : string) (v : value) : option string :=
  match v with
  | VUndefined => None
  | VNull => Some "null"
  | VBool true => Some "true"
  | VBool false => Some "false"
  | VNum n =>
      match n with
      | S754_finite _ _ _ | S754_zero _ => Some (NumberToString n)
      | _ => Some "null"
      end
  | VStr s => Some (QuoteJSONString s)
  | VArr l =>
      let items :=
        (fix elements (l : list value) : list string :=
           match l with
           | [] => []
           | x :: l' =>
               default "null" (serialize (indent +:+ "  ") x) :: elements l'
           end) l in
      Some (wrap "[" "]" indent items)
  | VObj o =>
      let items :=
        (fix members (o : list (string * value)) : list string :=
           match o with
           | [] => []
           | (k, x) :: o' =>
               match serialize (indent +:+ "  ") x with
               | Some t => (QuoteJSONString k +:+ ": " +:+ t) :: members o'
               | None => members o'
               end
           end) o in
      Some (wrap "{" "}" indent items)
  end.

Definition stringify (v : value) : option string := serialize EmptyString v.

(** *** JSON.parse *)

Definition is_json_space (c : ascii) : bool :=
  let n := N_of_ascii c in
  ((n =? 32) || (n =? 9) || (n =? 10) || (n =? 13))%N.

Fixpoint skip_ws (l : list ascii) : list ascii :=
  match l with
  | c :: l' => if is_json_space c then skip_ws l' else l
  | [] => []
  end.

Fixpoint span_digits (l : list ascii) : list ascii * list ascii :=
  match l with
  | c :: l' =>
      match digit_value 10 c with
      | Some _ => let '(ds, r) := span_digits l' in (c :: ds, r)
      | None => ([], l)
      end
  | [] => ([], [])
  end.

(** A JSON number token and what follows it. *)
Definition span_number (l : list ascii) : option (list ascii * list ascii) :=
  let '(sign, l1) :=
    match l with
    | "-"%char :: r => (["-"%char], r)
    | _ => ([], l)
    end in
  let int_part :=
    match l1 with
    | "0"%char :: r => Some (["0"%char], r)
    | _ =>
        match span_digits l1 with
        | ([], _) => None
        | (ds, r) => Some (ds, r)
        end
    end in
  match int_part with
  | None => None
  | Some (ip, l2) =>
      let frac :=
        match l2 with
        | "."%char :: r =>
            match span_digits r with
            | ([], _) => None
            | (ds, r') => Some ("."%char :: ds, r')
            end
        | _ => Some ([], l2)
        end in
      match frac with
      | None => None
      | Some (fp, l3) =>
          let exp :=
            match l3 with
            | c :: r =>
                if (Ascii.eqb c "e" || Ascii.eqb c "E")%bool then
                  let '(sg, r') :=
                    match r with
                    | "-"%char :: r' => (["-"%char], r')
                    | "+"%char :: r' => (["+"%char], r')
                    | _ => ([], r)
                    end in
                  match span_digits r' with
                  | ([], _) => None
                  | (ds, r'') => Some (c :: sg ++ ds, r'')
                  end
                else Some ([], l3)
            | [] => Some ([], l3)
            end in
          match exp with
          | None => None
          | Some (ep, l4) => Some (sign ++ ip ++ fp ++ ep, l4)
          end
      end
  end.

Definition hex4 (a b c d : ascii) : option N :=
  match digit_value 16 a, digit_value 16 b, digit_value 16 c, digit_value 16 d with
  | Some x, Some y, Some z, Some w => Some (((x * 16 + y) * 16 + z) * 16 + w)%N
  | _, _, _, _ => None
  end.

(** The characters of a JSON string after its opening quote, up to the
    closing one. An escape that denotes a code unit above 255 is outside
    the modelled strings and is not accepted. *)
Fixpoint span_string (l : list ascii) : option (string * list ascii) :=
  match l with
  | [] => None
  | c :: l' =>
      if Ascii.eqb c dquote then Some (EmptyString, l')
      else if Ascii.eqb c backslash then
        match l' with
        | "u"%char :: a :: b :: c' :: d :: r =>
            match hex4 a b c' d with
            | Some n =>
                if (n <? 256)%N then
                  match span_string r with
                  | Some (s, r') => Some (String (ascii_of_N n) s, r')
                  | None => None
                  end
                else None
            | None => None
            end
        | e :: r =>
            let unescaped :=
              if Ascii.eqb e dquote then Some dquote
              else if Ascii.eqb e backslash then Some backslash
              else if Ascii.eqb e "/" then Some "/"%char
              else if Ascii.eqb e "b" then Some "008"%char
              else if Ascii.eqb e "f" then Some "012"%char
              else if Ascii.eqb e "n" then Some "010"%char
              else if Ascii.eqb e "r" then Some "013"%char
              else if Ascii.eqb e "t" then Some "009"%char
              else None in
            match unescaped, span_string r with
            | Some x, Some (s, r') => Some (String x s, r')
            | _, _ => None
            end
        | [] => None
        end
      else if (N_of_ascii c <? 32)%N then None
      else
        match span_string l' with
        | Some (s, r) => Some (String c s, r)
        | None => None
        end
  end.

(** What follows the prefix [p] in [l], when [l] starts with it. *)
Fixpoint strip_prefix (p l : list ascii) : option (list ascii) :=
  match p with
  | [] => Some l
  | c :: p' =>
      match l with
      | c' :: l' => if Ascii.eqb c c' then strip_prefix p' l' else None
      | [] => None
      end
  end.

(** The literals true, false and null. *)
Definition parse_literal (l : list ascii) : option (value * list ascii) :=
  match strip_prefix (list_ascii_of_string "true") l with
  | Some r => Some (VBool true, r)
  | None =>
      match strip_prefix (list_ascii_of_string "false") l with
      | Some r => Some (VBool false, r)
      | None =>
          match strip_prefix (list_ascii_of_string "null") l with
          | Some r => Some (VNull, r)
          | None => None
          end
      end
  end.

Definition parse_number (l : list ascii) : option (value * list ascii) :=
  match span_number l with
  | Some (tok, r) => Some (VNum (StringToNumber (string_of_list_ascii tok)), r)
  | None => None
  end.

(** JSON value, members and elements by recursive descent. Two nested
    calls consume at least one character, so fuel above twice the length
    of the text is never exhausted. A member is entered with
    CreateDataProperty: a repeated key keeps its first place and takes
    the last value. *)
Fixpoint parse_value (fuel : nat) (l : list ascii) : option (value * list ascii) :=
  match fuel with
  | O => None
  | S fuel' =>
      match skip_ws l with
      | [] => None
      | c :: r =>
          if Ascii.eqb c "{" then
            match skip_ws r with
            | c' :: r' =>
                if Ascii.eqb c' "}" then Some (VObj [], r')
                else
                  match parse_members fuel' r [] with
                  | Some (o, r'') => Some (VObj o, r'')
                  | None => None
                  end
            | [] => None
            end
          else if Ascii.eqb c "[" then
            match skip_ws r with
            | c' :: r' =>
                if Ascii.eqb c' "]" then Some (VArr [], r')
                else
                  match parse_elements fuel' r [] with
                  | Some (elems, r'') => Some (VArr elems, r'')
                  | None => None
                  end
            | [] => None
            end
          else if Ascii.eqb c dquote then
            match span_string r with
            | Some (s, r') => Some (VStr s, r')
            | None => None
            end
          else
            match parse_literal (c :: r) with
            | Some res => Some res
            | None => parse_number (c :: r)
            end
      end
  end
with parse_members (fuel : nat) (l : list ascii) (acc : list (string * value))
  : option (list (string * value) * list ascii) :=
  match fuel with
  | O => None
  | S fuel' =>
      match skip_ws l with
      | c :: r =>
          if Ascii.eqb c dquote then
            match span_string r with
            | Some (k, r1) =>
                match skip_ws r1 with
                | c1 :: r2 =>
                    if Ascii.eqb c1 ":" then
                      match parse_value fuel' r2 with
                      | Some (v, r3) =>
                          match skip_ws r3 with
                          | c3 :: r4 =>
                              if Ascii.eqb c3 "," then
                                parse_members fuel' r4 (obj_set k v acc)
                              else if Ascii.eqb c3 "}" then
                                Some (obj_set k v acc, r4)
                              else None
                          | [] => None
                          end
                      | None => None
                      end
                    else None
                | [] => None
                end
            | None => None
            end
          else None
      | [] => None
      end
  end
with parse_elements (fuel : nat) (l : list ascii) (acc : list value)
  : option (list value * list ascii) :=
  match fuel with
  | O => None
  | S fuel' =>
      match parse_value fuel' l with
      | Some (v, r) =>
          match skip_ws r with
          | c :: r' =>
              if Ascii.eqb c "," then parse_elements fuel' r' (acc ++ [v])
              else if Ascii.eqb c "]" then Some (acc ++ [v], r')
              else None
          | [] => None
          end
      | None => None
      end
  end.

(** [JSON.parse(text)]: the tree, or a SyntaxError. *)
Definition parse (text : string) : result value :=
  let l := list_ascii_of_string text in
  match parse_value (2 * length l + 2) l with
  | Some (v, r) =>
      match skip_ws r with
      | [] => Val v
      | _ => Throw SyntaxError
      end
  | None => Throw SyntaxError
  end.

End JSON.

(** ** The component *)

Module NodeModal.
Import JSNumber JS.

(** *** Data of [types/graph] *)

Inductive RowType : Type :=
| TString | TNumber | TBoolean | TNull | TArray | TObject.

(** Modelled from the spec: the declaration of a field row is in
    [types/graph], which is not part of the sources; a row has an
    optional key, a scalar or null value and a kind. *)
Record NodeRow : Type := {
  row_key : option string;
  row_value : scalar;
  row_type : RowType
}.

(** A path segment: a map key or a sequence index. An index is a
    non-negative integer; the code holds it as a number, which is that
    integer below [2^53], and the text of such a number is its decimal
    digits, which is how [seg_key] and [seg_text] render it. What is
    stated of the text of an index is stated below that bound. *)
Inductive segment : Type :=
| SKey (s : string)
| SIdx (i : N).

(** Modelled from the spec: the node view of [types/graph], with its
    identifier, its optional path and its rows (layout fields left
    out). *)
Record NodeData : Type := {
  node_id : string;
  node_text : list NodeRow;
  node_path : option (list segment)
}.

(** One element of [updates]: [{ index, value }]. *)
Record Update : Type := {
  upd_index : nat;
  upd_value : scalar
}.

(** *** normalizeNodeData *)

(** The test [row.type !== "array" && row.type !== "object" && row.key]
    of lines 16-17, 45 and 71, giving the key when the test passes. *)
Definition editable_key (row : NodeRow) : option string :=
  match row_type row with
  | TArray | TObject => None
  | _ => truthy_key (row_key row)
  end.

(** The body of the [forEach] over the rows (lines 15-19):
    [obj[row.key] = row.value] on the object of line 14. *)
Definition add_row (obj : plain) (row : NodeRow) : plain :=
  match editable_key row with
  | Some k => plain_set k (row_value row) obj
  | None => obj
  end.

(** The own properties of [obj] when the loop has run. *)
Definition row_object (nodeRows : list NodeRow) : list (string * value) :=
  own (foldl add_row empty_plain nodeRows).

(** The serialisation of an object is never undefined, so the last
    branch of [stringify_object] is not taken. *)
Definition stringify_object (obj : list (string * value)) : string :=
  match JSON.stringify (VObj obj) with
  | Some s => s
  | None => EmptyString
  end.

(** Lines 10-21. The callers pass a row sequence, never undefined. *)
Definition normalizeNodeData (nodeRows : list NodeRow) : string :=
  match nodeRows with
  | [] => "{}"
  | [row] =>
      match truthy_key (row_key row) with
      | None => ToString (row_value row)
      | Some _ => stringify_object (row_object nodeRows)
      end
  | _ => stringify_object (row_object nodeRows)
  end.

(** *** jsonPathToString *)

(** The property key and the joined text of a numeric segment. *)
Definition seg_key (seg : segment) : string :=
  match seg with
  | SKey s => s
  | SIdx i => digits_of i
  end.

Definition quoted (s : string) : string :=
  String JSON.dquote s +:+ String JSON.dquote EmptyString.

Definition seg_text (seg : segment) : string :=
  match seg with
  | SIdx i => digits_of i
  | SKey s => quoted s
  end.

(** Lines 24-28. *)
Definition jsonPathToString (path : option (list segment)) : string :=
  match path with
  | None | Some [] => "$"
  | Some p => "$[" +:+ join "][" (map seg_text p) +:+ "]"
  end.

(** *** coerceValue *)

(** Lines 57-64. *)
Definition coerceValue (val : string) : scalar :=
  if String.eqb val "null" then SNull
  else if String.eqb val "true" then SBool true
  else if String.eqb val "false" then SBool false
  else
    let n := StringToNumber val in
    if negb (isNaN n) && String.eqb (NumberToString n) val then SNum n
    else SStr val.

(** *** The edit session *)

(** [v ?? d]. *)
Definition nullish_or (v d : scalar) : scalar :=
  match v with
  | SNull => d
  | _ => v
  end.

(** The session is a plain object whose values are texts; the map holds
    its own properties. An assignment [fields[k] = text] writes an own
    property, except under the key [__proto__], which the inherited
    setter receives and, the value being a text, ignores. The object
    literal of [handleFieldChange] defines its computed key as an own
    property whatever the key. A read [editFields[k]] of a key the
    session does not hold finds the names of [Object.prototype]; see
    [reads_prototype] below. *)

(** The [fields] object the effect builds when edit mode is entered
    (lines 43-48). *)
Definition seed_row (fields : gmap string string) (row : NodeRow)
  : gmap string string :=
  match editable_key row with
  | Some k =>
      if String.eqb k "__proto__" then fields
      else <[k := ToString (nullish_or (row_value row) (SStr EmptyString))]> fields
  | None => fields
  end.

Definition seedFields (rows : list NodeRow) : gmap string string :=
  foldl seed_row ∅ rows.

(** Some row that passes the test has a key the session does not hold
    and [Object.prototype] does: [editFields[row.key]] is then a
    built-in function or object, not a text, and what the diff and the
    edit form do with it is outside the model. *)
Definition reads_prototype (editFields : gmap string string)
  (rows : list NodeRow) : bool :=
  existsb (λ row,
             match editable_key row with
             | Some k =>
                 match editFields !! k with
                 | Some _ => false
                 | None => named_in Object_prototype k
                 end
             | None => false
             end) rows.

(** The callback of [nodeData.text.map] in [handleSaveClick]
    (lines 70-78), for a session and rows with
    [reads_prototype editFields rows = false]. *)
Definition row_update (editFields : gmap string string)
  (index : nat) (row : NodeRow) : option Update :=
  match editable_key row with
  | Some k =>
      match editFields !! k with
      | Some newValue =>
          if String.eqb (ToString (row_value row)) newValue then None
          else Some {| upd_index := index; upd_value := coerceValue newValue |}
      | None => None
      end
  | None => None
  end.

(** [updates]: the mapped rows with the nulls filtered out
    (lines 69-79). *)
Definition computeUpdates (rows : list NodeRow)
  (editFields : gmap string string) : list Update :=
  omap id (imap (row_update editFields) rows).

(** One text input of the edit form: the label above it, its
    placeholder and the text it shows. *)
Record FormInput : Type := {
  input_label : string;
  input_placeholder : string;
  input_value : string
}.

(** The inputs the edit form renders (lines 188-201): the rows that pass
    the test, each with its key as label, [String(row.value ?? "")] as
    placeholder and [editFields[row.key] ?? ""] as value, for a session
    and rows with [reads_prototype editFields rows = false]. *)
Definition editForm (rows : list NodeRow) (editFields : gmap string string)
  : list FormInput :=
  map (λ row,
         let k := default EmptyString (row_key row) in
         {| input_label := k;
            input_placeholder :=
              ToString (nullish_or (row_value row) (SStr EmptyString));
            input_value := default EmptyString (editFields !! k) |})
    (filter (λ row, editable_key row ≠ None) rows).

(** *** Patching the parsed document *)

(** The [for (const seg of path) target = target[seg]] loop
    (lines 90-93). *)
Fixpoint navigate (target : value) (path : list segment) : result value :=
  match path with
  | [] => Val target
  | seg :: path' =>
      match get target (seg_key seg) with
      | Val target' => navigate target' path'
      | Throw e => Throw e
      end
  end.

(** An index below [2^53] is the number the code holds, and [seg_key]
    is the property key that number converts to. *)
Definition exact_index (seg : segment) : bool :=
  match seg with
  | SKey _ => true
  | SIdx i => (i <? 2 ^ 53)%N
  end.

(** The walk leaves what the model covers: some segment it reads is an
    index from [2^53] on, or some lookup finds its name on a built-in
    prototype, from where the walk of the code goes on inside a built-in
    object. *)
Fixpoint unmodelled_walk (target : value) (path : list segment) : bool :=
  match path with
  | [] => false
  | seg :: path' =>
      negb (exact_index seg) || inherited target (seg_key seg) ||
      match get target (seg_key seg) with
      | Val target' => unmodelled_walk target' path'
      | Throw _ => false
      end
  end.

(** The [updates.forEach] loop on the object [target] refers to
    (lines 95-100). *)
Fixpoint assignUpdates (target : value) (rows : list NodeRow)
  (updates : list Update) : result value :=
  match updates with
  | [] => Val target
  | u :: updates' =>
      match rows !! upd_index u with
      | Some row =>
          match truthy_key (row_key row) with
          | Some k =>
              match assign target k (upd_value u) with
              | Val target' => assignUpdates target' rows updates'
              | Throw e => Throw e
              end
          | None => assignUpdates target rows updates'
          end
      | None => assignUpdates target rows updates'
      end
  end.

(** [parsed] after the object reached along [path] has become [new]:
    the tree is rebuilt along the own properties and elements the path
    names, and is left as it is where the path leaves the tree. *)
Fixpoint plug (t : value) (path : list segment) (new : value) : value :=
  match path with
  | [] => new
  | seg :: path' =>
      match t with
      | VObj o =>
          match obj_lookup (seg_key seg) o with
          | Some child => VObj (obj_replace (seg_key seg) (plug child path' new) o)
          | None => t
          end
      | VArr l =>
          match array_index (seg_key seg) with
          | Some i =>
              match l !! N.to_nat i with
              | Some child => VArr (<[N.to_nat i := plug child path' new]> l)
              | None => t
              end
          | None => t
          end
      | _ => t
      end
  end.

(** Navigation and the assignments together: the value of [parsed]
    when both loops have run. *)
Definition applyUpdates (parsed : value) (path : list segment)
  (rows : list NodeRow) (updates : list Update) : result value :=
  match navigate parsed path with
  | Val target =>
      match assignUpdates target rows updates with
      | Val target' => Val (plug parsed path target')
      | Throw e => Throw e
      end
  | Throw e => Throw e
  end.

(** *** Stores, component state and effects *)

(** The part of the [useGraph] store the component reads and writes. *)
Record GraphState : Type := {
  nodes : list NodeData;
  selectedNode : option NodeData
}.

(** A callback handed to [setTimeout]. *)
Inductive callback : Type :=
| CbSetIsEditing (b : bool).

(** The calls the handlers make to their collaborators. *)
Inductive event : Type :=
| EvUpdateNodeValues (id : string) (updates : list Update)
| EvJSONParse (text : string)
| EvSetContents (contents : string) (skipUpdate : bool)
| EvConsoleError (message : string) (error : exn)
| EvSetSelectedNode (node : NodeData)
| EvSetTimeout (cb : callback) (delay : N).

Record World : Type := {
  graph : GraphState;
  contents : string;
  isEditing : bool;
  editFields : gmap string string;
  refreshKey : N;
  codeRefreshKey : N;
  timers : list (callback * N);
  trace : list event
}.

Definition set_graph (g : GraphState) (w : World) : World :=
  {| graph := g; contents := contents w; isEditing := isEditing w;
     editFields := editFields w; refreshKey := refreshKey w;
     codeRefreshKey := codeRefreshKey w; timers := timers w;
     trace := trace w |}.

Definition set_contents (c : string) (w : World) : World :=
  {| graph := graph w; contents := c; isEditing := isEditing w;
     editFields := editFields w; refreshKey := refreshKey w;
     codeRefreshKey := codeRefreshKey w; timers := timers w;
     trace := trace w |}.

Definition set_isEditing (b : bool) (w : World) : World :=
  {| graph := graph w; contents := contents w; isEditing := b;
     editFields := editFields w; refreshKey := refreshKey w;
     codeRefreshKey := codeRefreshKey w; timers := timers w;
     trace := trace w |}.

Definition set_editFields (f : gmap string string) (w : World) : World :=
  {| graph := graph w; contents := contents w; isEditing := isEditing w;
     editFields := f; refreshKey := refreshKey w;
     codeRefreshKey := codeRefreshKey w; timers := timers w;
     trace := trace w |}.

Definition set_refreshKey (k : N) (w : World) : World :=
  {| graph := graph w; contents := contents w; isEditing := isEditing w;
     editFields := editFields w; refreshKey := k;
     codeRefreshKey := codeRefreshKey w; timers := timers w;
     trace := trace w |}.

Definition set_codeRefreshKey (k : N) (w : World) : World :=
  {| graph := graph w; contents := contents w; isEditing := isEditing w;
     editFields := editFields w; refreshKey := refreshKey w;
     codeRefreshKey := k; timers := timers w; trace := trace w |}.

Definition set_timers (t : list (callback * N)) (w : World) : World :=
  {| graph := graph w; contents := contents w; isEditing := isEditing w;
     editFields := editFields w; refreshKey := refreshKey w;
     codeRefreshKey := codeRefreshKey w; timers := t; trace := trace w |}.

(** The trace grows at its end. *)
Definition log (e : event) (w : World) : World :=
  {| graph := graph w; contents := contents w; isEditing := isEditing w;
     editFields := editFields w; refreshKey := refreshKey w;
     codeRefreshKey := codeRefreshKey w; timers := timers w;
     trace := trace w ++ [e] |}.

(** A statement: it runs on the world and completes with a value or
    with a thrown exception; what it did before throwing stays done. *)
Definition M (A : Type) : Type := World → result A * World.

Definition ret {A : Type} (a : A) : M A := λ w, (Val a, w).

Definition bind {A B : Type} (m : M A) (k : A → M B) : M B :=
  λ w,
    match m w with
    | (Val a, w') => k a w'
    | (Throw e, w') => (Throw e, w')
    end.

Definition throw {A : Type} (e : exn) : M A := λ w, (Throw e, w).

(** [try { body } catch (error) { handler }]. *)
Definition try_catch (body : M unit) (handler : exn → M unit) : M unit :=
  λ w,
    match body w with
    | (Val a, w') => (Val a, w')
    | (Throw e, w') => handler e w'
    end.

Definition lift {A : Type} (r : result A) : M A := λ w, (r, w).
Definition gets {A : Type} (f : World → A) : M A := λ w, (Val (f w), w).
Definition modify (f : World → World) : M unit := λ w, (Val tt, f w).

Declare Scope stmt_scope.
Delimit Scope stmt_scope with stmt.
Notation "'let*' x := m 'in' k" := (bind m (λ x, k))
  (at level 10, x binder, k at level 200) : stmt_scope.
Notation "m ;; k" := (bind m (λ _, k))
  (at level 100, right associativity) : stmt_scope.

(** Modelled from the spec: [setContents] of the [useFile] store is
    not part of the sources; it is the document store's
    [setText(text)], which replaces the stored text. *)
Definition setContents (text : string) (skipUpdate : bool) : M unit :=
  modify (λ w, set_contents text (log (EvSetContents text skipUpdate) w)).

(** Modelled from the spec: [setSelectedNode] of the [useGraph] store
    is not part of the sources; it adopts the given node view as the
    read state. *)
Definition setSelectedNode (node : NodeData) : M unit :=
  modify (λ w,
    set_graph {| nodes := nodes (graph w); selectedNode := Some node |}
      (log (EvSetSelectedNode node) w)).

Definition console_error (message : string) (error : exn) : M unit :=
  modify (log (EvConsoleError message error)).

Definition JSON_parse (text : string) : M value :=
  λ w, (JSON.parse text, log (EvJSONParse text) w).

Definition setIsEditing (b : bool) : M unit := modify (set_isEditing b).
Definition setEditFields (f : gmap string string) : M unit :=
  modify (set_editFields f).
Definition setRefreshKey (f : N → N) : M unit :=
  modify (λ w, set_refreshKey (f (refreshKey w)) w).
Definition setCodeRefreshKey (f : N → N) : M unit :=
  modify (λ w, set_codeRefreshKey (f (codeRefreshKey w)) w).

Definition setTimeout (cb : callback) (delay : N) : M unit :=
  modify (λ w, set_timers (timers w ++ [(cb, delay)]) (log (EvSetTimeout cb delay) w)).

Definition run_callback (cb : callback) : M unit :=
  match cb with
  | CbSetIsEditing b => setIsEditing b
  end.

(** The pending timers fire, in the order they were scheduled. *)
Definition fire_timers (w : World) : World :=
  foldl (λ w t, snd (run_callback (fst t) w)) (set_timers [] w) (timers w).

(** [nodes.find(n => n.id === id)]. *)
Definition find_node (id : string) (l : list NodeData) : option NodeData :=
  List.find (λ n, String.eqb (node_id n) id) l.

Section Handlers.

(** The [updateNodeValues] action of the [useGraph] store is not part
    of the sources: it is taken as a parameter, a state transformer
    of the store that the store may also lack. *)
Variable updateNodeValues :
  option (string → list Update → GraphState → GraphState).

Definition call_updateNodeValues
  (f : string → list Update → GraphState → GraphState)
  (id : string) (updates : list Update) : M unit :=
  modify (λ w, set_graph (f id updates (graph w))
                 (log (EvUpdateNodeValues id updates) w)).

(** The effect that initialises the edit fields (lines 41-51). *)
Definition initEditFields : M unit :=
  λ w,
    match isEditing w, selectedNode (graph w) with
    | true, Some nodeData => setEditFields (seedFields (node_text nodeData)) w
    | _, _ => (Val tt, w)
    end.

Definition handleEditClick : M unit := setIsEditing true.

Definition handleCancelClick : M unit :=
  (setEditFields ∅ ;; setIsEditing false)%stmt.

Definition handleFieldChange (key value : string) : M unit :=
  modify (λ w, set_editFields (<[key := value]> (editFields w)) w).

(** The body of the [try] block (lines 85-104). The serialisation of the patched tree
    is a text (undefined is not among the answers of [JSON.parse], nor
    of an assignment), so the last branch on [JSON.stringify] is never
    taken. *)
Definition syncBody (nodeData : NodeData) (updates : list Update) : M unit :=
  (let* text := gets contents in
   let* parsed := JSON_parse text in
   let* nodes := gets (λ w, nodes (graph w)) in
   match find_node (node_id nodeData) nodes with
   | Some nodeToUpdate =>
       match node_path nodeToUpdate with
       | Some path =>
           let* parsed' :=
             lift (applyUpdates parsed path (node_text nodeToUpdate) updates) in
           match JSON.stringify parsed' with
           | Some updatedJson => setContents updatedJson false
           | None => ret tt
           end
       | None => ret tt
       end
   | None => ret tt
   end)%stmt.

(** Lines 110-113. *)
Definition refreshSelectedNode (nodeData : NodeData) : M unit :=
  (let* nodes := gets (λ w, nodes (graph w)) in
   match find_node (node_id nodeData) nodes with
   | Some updatedNode => setSelectedNode updatedNode
   | None => ret tt
   end)%stmt.

(** Lines 66-123. The state the handler reads ([nodeData], [contents],
    [editFields]) is that of the last render, which is the current
    state of the stores and of the component. *)
Definition handleSaveClick : M unit :=
  (let* selected := gets (λ w, selectedNode (graph w)) in
   match selected with
   | None => ret tt
   | Some nodeData =>
       let* fields := gets editFields in
       let updates := computeUpdates (node_text nodeData) fields in
       match updates, updateNodeValues with
       | _ :: _, Some update =>
           call_updateNodeValues update (node_id nodeData) updates ;;
           try_catch (syncBody nodeData updates)
             (λ error, console_error "Failed to sync to text editor:" error) ;;
           refreshSelectedNode nodeData ;;
           setRefreshKey (λ prev, prev + 1)%N ;;
           setCodeRefreshKey (λ prev, prev + 1)%N ;;
           setTimeout (CbSetIsEditing false) 100
       | _, _ => setIsEditing false
       end
   end)%stmt.

End Handlers.

End NodeModal.

(** ** A node store and the documents of the examples *)

Module Scenario.
Import JSNumber JS NodeModal.

Definition set_row_value (v : scalar) (row : NodeRow) : NodeRow :=
  {| row_key := row_key row; row_value := v; row_type := row_type row |}.

Definition apply_update (rows : list NodeRow) (u : Update) : list NodeRow :=
  match rows !! upd_index u with
  | Some row => <[upd_index u := set_row_value (upd_value u) row]> rows
  | None => rows
  end.

(** Modelled from the spec: a node store whose [updateValues(id,
    updates)] writes the value of every update into the row at its
    index of the node with that id. It stands for the absent
    [updateNodeValues] in the examples. *)
Definition updateValues (id : string) (updates : list Update)
  (g : GraphState) : GraphState :=
  {| nodes :=
       map (λ n,
              if String.eqb (node_id n) id
              then {| node_id := node_id n;
                      node_text := foldl apply_update (node_text n) updates;
                      node_path := node_path n |}
              else n) (nodes g);
     selectedNode := selectedNode g |}.

(** The document, rows and session of the end-to-end examples:
    a customer with a name and an age, the age edited to 31. *)
Definition customer_text : string :=
  "{" +:+ quoted "customer" +:+ ":{" +:+ quoted "name" +:+ ":" +:+
  quoted "Bob" +:+ "," +:+ quoted "age" +:+ ":30}}".

Definition customer_rows : list NodeRow :=
  [ {| row_key := Some "name"; row_value := SStr "Bob"; row_type := TString |};
    {| row_key := Some "age"; row_value := SNum (of_N 30); row_type := TNumber |} ].

Definition customer_node (path : option (list segment)) : NodeData :=
  {| node_id := "2"; node_text := customer_rows; node_path := path |}.

(** The world in which the node view is selected and edited, the
    store holding the given nodes and the document store the given
    text. *)
Definition editing (stored : list NodeData) (text : string)
  (fields : gmap string string) : World :=
  {| graph := {| nodes := stored;
                 selectedNode := Some (customer_node (Some [SKey "customer"])) |};
     contents := text;
     isEditing := true;
     editFields := fields;
     refreshKey := 0;
     codeRefreshKey := 0;
     timers := [];
     trace := [] |}.

Definition age_31 : gmap string string :=
  <["age" := "31"]> (seedFields customer_rows).

Definition stored_customer : list NodeData :=
  [customer_node (Some [SKey "customer"])].

(** The age edited to 31, the store and the document in step. *)
Definition edited : World := editing stored_customer customer_text age_31.

(** Edit mode entered and left untouched. *)
Definition untouched : World :=
  editing stored_customer customer_text (seedFields customer_rows).

(** The store holds the node under a path the document does not have. *)
Definition unresolved_path : World :=
  editing [customer_node (Some [SKey "missing"; SKey "x"])] customer_text age_31.

(** The store holds no node, and the document text does not parse. *)
Definition missing_node : World := editing [] "{" age_31.

(** The store holds the node without a path. *)
Definition pathless_node : World :=
  editing [customer_node None] customer_text age_31.

(** The tree [customer_text] parses to. *)
Definition customer_tree : value :=
  VObj [("customer",
         VObj [("name", VStr "Bob"); ("age", VNum (of_N 30))])].

(** A document whose member a is the number 5, its pretty-printed
    text, and a world in which the store holds the node without rows
    under the path a, b. *)
Definition five_text : string := "{" +:+ quoted "a" +:+ ":5}".

Definition five_tree : value := VObj [("a", VNum (of_N 5))].

Definition five_pretty : string :=
  "{" +:+ JSON.newline +:+ "  " +:+ quoted "a" +:+ ": 5" +:+ JSON.newline +:+ "}".

Definition stale_rows : World :=
  editing [ {| node_id := "2"; node_text := [];
               node_path := Some [SKey "a"; SKey "b"] |} ]
    five_text age_31.

(** Two rows, the second under a key that is an array index. *)
Definition index_rows : list NodeRow :=
  [ {| row_key := Some "b"; row_value := SNum (of_N 1); row_type := TNumber |};
    {| row_key := Some "1"; row_value := SNum (of_N 2); row_type := TNumber |} ].

(** A document with two members, the customer and an order. *)
Definition shop_tree : value :=
  VObj [("customer",
         VObj [("name", VStr "Bob"); ("age", VNum (of_N 30))]);
        ("order", VObj [("id", VNum (of_N 7))])].

(** A row whose value is null, and one whose key is the empty
    string. *)
Definition null_row : NodeRow :=
  {| row_key := Some "a"; row_value := SNull; row_type := TNull |}.

Definition empty_key_row : NodeRow :=
  {| row_key := Some EmptyString; row_value := SStr "a"; row_type := TString |}.

End Scenario.

(** * Properties *)

Import JSNumber JS NodeModal.

(** ** Notions the statements use *)

(** One segment between its brackets. *)
Definition bracketed (seg : segment) : string := "[" +:+ seg_text seg +:+ "]".

(** The events the refresh of the selected node adds. *)
Definition refresh_events (id : string) (stored : list NodeData) : list event :=
  match find_node id stored with
  | Some updatedNode => [EvSetSelectedNode updatedNode]
  | None => []
  end.

(** Some update names a row of the stored node that has a key, and
    that key is not [__proto__] (an assignment under that key reaches
    the inherited setter, which throws nothing on a primitive). *)
Definition applicable (rows : list NodeRow) (updates : list Update) : Prop :=
  ∃ u row k,
    u ∈ updates ∧ rows !! upd_index u = Some row ∧
    truthy_key (row_key row) = Some k ∧ k ≠ "__proto__".

(** The assignments a list of updates resolves to on the rows of the
    stored node, and their effect on an object. *)
Definition resolve (rows : list NodeRow) (updates : list Update)
  : list (string * value) :=
  omap (λ u,
          match rows !! upd_index u with
          | Some row =>
              match truthy_key (row_key row) with
              | Some k => Some (k, of_scalar (upd_value u))
              | None => None
              end
          | None => None
          end) updates.

Definition set_all (l : list (string * value)) (o : list (string * value))
  : list (string * value) :=
  foldl (λ o kv, obj_set (fst kv) (snd kv) o) o l.


(** The last value a list of assignments gives to each key. *)
Fixpoint to_map (l : list (string * value)) : gmap string value :=
  match l with
  | [] => ∅
  | (k, v) :: l' => to_map l' ∪ {[ k := v ]}
  end.

(** The assignment a row contributes. *)
Definition entry (row : NodeRow) : option (string * value) :=
  match editable_key row with
  | Some k => Some (k, of_scalar (row_value row))
  | None => None
  end.

(** The assignments of the rows that write an own property of the
    object of the normaliser: one under [__proto__] writes none while
    the object has its prototype ([proto]), which lasts until such a row
    holds null. *)
Fixpoint own_entries (proto : bool) (rows : list NodeRow)
  : list (string * value) :=
  match rows with
  | [] => []
  | row :: rows' =>
      match editable_key row with
      | Some k =>
          if String.eqb k "__proto__" && proto then
            own_entries
              (match row_value row with SNull => false | _ => true end) rows'
          else (k, of_scalar (row_value row)) :: own_entries proto rows'
      | None => own_entries proto rows'
      end
  end.

(** The value of the last row that is kept under the key [k]. *)
Definition last_value (rows : list NodeRow) (k : string) : option scalar :=
  row_value <$> last (filter (λ row, editable_key row = Some k) rows).

(** The first occurrence of every element, in order. *)
Fixpoint first_occ (l : list string) : list string :=
  match l with
  | [] => []
  | x :: l' => x :: filter (λ y, y ≠ x) (first_occ l')
  end.

(** The order of two keys that are array indices. *)
Definition index_lt (k1 k2 : string) : Prop :=
  match array_index k1, array_index k2 with
  | Some i, Some j => (i < j)%N
  | _, _ => False
  end.

(** The keys of an object in the order of the language: the array
    indices in ascending order, then the keys in [rest]. *)
Definition js_ordered (rest keys : list string) : Prop :=
  ∃ idx,
    keys = idx ++ rest ∧
    Forall (λ k, array_index k ≠ None) idx ∧
    StronglySorted index_lt idx.

(** The normaliser as C8 words it: a row counts when its key is present,
    and the map keeps the rows in their order. *)
Definition stated_entry (row : NodeRow) : option (string * value) :=
  match row_type row, row_key row with
  | (TArray | TObject), _ => None
  | _, Some k => Some (k, of_scalar (row_value row))
  | _, None => None
  end.

Definition insertion_set (o : list (string * value)) (kv : string * value)
  : list (string * value) :=
  match obj_lookup (fst kv) o with
  | Some _ => obj_replace (fst kv) (snd kv) o
  | None => o ++ [kv]
  end.

Definition normalize_as_stated (rows : list NodeRow) : string :=
  match rows with
  | [] => "{}"
  | [row] =>
      match row_key row with
      | None => ToString (row_value row)
      | Some _ => stringify_object (foldl insertion_set [] (omap stated_entry rows))
      end
  | _ => stringify_object (foldl insertion_set [] (omap stated_entry rows))
  end.

(** The world a statement leaves. *)
Definition run (m : M unit) (w : World) : World := snd (m w).

(** The rows [rows'] are [rows] with the value of every update written
    at its index, keys and kinds kept. *)
Definition written (rows : list NodeRow) (updates : list Update)
  (rows' : list NodeRow) : Prop :=
  ∀ i row',
    rows' !! i = Some row' →
    ∃ row,
      rows !! i = Some row ∧
      row_key row' = row_key row ∧ row_type row' = row_type row ∧
      ((∃ u, u ∈ updates ∧ upd_index u = i ∧ row_value row' = upd_value u) ∨
       ((∀ u, u ∈ updates → upd_index u ≠ i) ∧ row_value row' = row_value row)).

(** A string segment without a double quote; an index segment always
    qualifies. *)
Definition quote_free (seg : segment) : Prop :=
  match seg with
  | SKey s => JSON.dquote ∉ list_ascii_of_string s
  | SIdx _ => True
  end.

(** ** Strings *)

Lemma string_app_cons (x : ascii) (a b : string) :
  String x a +:+ b = String x (a +:+ b).
Proof. reflexivity. Qed.

Lemma string_app_assoc (a b c : string) : (a +:+ b) +:+ c = a +:+ (b +:+ c).
Proof.
  induction a as [|x a IH]; [reflexivity|].
  now rewrite !string_app_cons, IH.
Qed.

Lemma string_app_nil_r (a : string) : a +:+ EmptyString = a.
Proof.
  induction a as [|x a IH]; [reflexivity|].
  now rewrite string_app_cons, IH.
Qed.

(** ** The path formatter *)

Lemma join_bracketed (x : string) (l : list string) :
  "[" +:+ join "][" (x :: l) +:+ "]" =
  foldr String.append EmptyString (map (λ t, "[" +:+ t +:+ "]") (x :: l)).
Proof.
  revert x. induction l as [|y l IH]; intros x.
  - cbn [join map foldr]. now rewrite !string_app_nil_r.
  - change (join "][" (x :: y :: l)) with (x +:+ "][" +:+ join "][" (y :: l)).
    change (foldr String.append EmptyString (map (λ t, "[" +:+ t +:+ "]") (x :: y :: l)))
      with (("[" +:+ x +:+ "]") +:+
            foldr String.append EmptyString (map (λ t, "[" +:+ t +:+ "]") (y :: l))).
    rewrite <- IH. rewrite !string_app_assoc. reflexivity.
Qed.

Lemma digits_of_denote (i : N) :
  option_map N.of_uint (NilZero.uint_of_string (digits_of i)) = Some i.
Proof.
  unfold digits_of. rewrite NilZero.usu.
  - simpl. now rewrite DecimalN.Unsigned.of_to.
  - destruct i as [|p]; simpl; [discriminate | apply DecimalPos.Unsigned.to_uint_nonnil].
Qed.

(** The digits of a number are those of its canonical numeral: there is
    no leading zero. *)
Lemma digits_of_canonical (i : N) :
  digits_of i = "0" ∨
  ∃ c r, digits_of i = String c r ∧ c ≠ "0"%char.
Proof.
  unfold digits_of.
  assert (Hn : Decimal.unorm (N.to_uint i) = N.to_uint i).
  { rewrite <- DecimalN.Unsigned.to_of. now rewrite DecimalN.Unsigned.of_to. }
  rewrite <- Hn. unfold Decimal.unorm.
  destruct (Decimal.nzhead (N.to_uint i)) eqn:Hz;
    try (right; eexists _, _; split; [reflexivity | discriminate]).
  - left. reflexivity.
  - exfalso. eapply DecimalFacts.nzhead_nonzero. exact Hz.
Qed.

(** C9. An absent or empty path formats to the dollar sign alone; any
    path formats to the dollar sign followed by its segments in order,
    each between square brackets; a string segment stands between double
    quotes; an index segment below [2^53], where every integer is a
    number and is printed in full, is written as bare digits: the text
    is the decimal numeral that denotes the index, without a leading
    zero; the path customer, 0, name is the text of the example. *)
Theorem jsonPathToString_spec :
  jsonPathToString None = "$" ∧
  jsonPathToString (Some []) = "$" ∧
  (∀ p : list segment,
     jsonPathToString (Some p) =
     "$" +:+ foldr String.append EmptyString (map bracketed p)) ∧
  (∀ s : string,
     seg_text (SKey s) = String JSON.dquote s +:+ String JSON.dquote EmptyString) ∧
  (∀ i : N,
     (i < 2 ^ 53)%N →
     option_map N.of_uint (NilZero.uint_of_string (seg_text (SIdx i))) = Some i ∧
     (seg_text (SIdx i) = "0" ∨
      ∃ c r, seg_text (SIdx i) = String c r ∧ c ≠ "0"%char)) ∧
  jsonPathToString (Some [SKey "customer"; SIdx 0; SKey "name"]) =
    "$[" +:+ quoted "customer" +:+ "][0][" +:+ quoted "name" +:+ "]".
Proof.
  repeat split.
  - intros [|seg p]; [reflexivity|].
    unfold jsonPathToString.
    change ("$[" +:+ join "][" (map seg_text (seg :: p)) +:+ "]")
      with ("$" +:+ ("[" +:+ join "][" (map seg_text (seg :: p)) +:+ "]")).
    f_equal. change (map seg_text (seg :: p)) with (seg_text seg :: map seg_text p).
    rewrite join_bracketed. unfold bracketed.
    change (seg_text seg :: map seg_text p) with (map seg_text (seg :: p)).
    now rewrite map_map.
  - apply digits_of_denote.
  - apply digits_of_canonical.
Qed.

(** ** The coercion of edited text *)

Ltac close_case :=
  repeat split; intros;
  repeat match goal with
         | H : _ ∧ _ |- _ => destruct H
         | H : _ ∨ _ |- _ => destruct H
         end;
  subst; try congruence; try discriminate; auto.

(** C1, as stated, fails on the text NaN: its numeric conversion is the
    number NaN, whose text is again NaN, yet the code answers the string,
    since it accepts no NaN. *)
Lemma coerceValue_NaN_counterexample :
  ¬ (∀ val : string,
       val ≠ "null" → val ≠ "true" → val ≠ "false" →
       (coerceValue val = SNum (StringToNumber val) ↔
        NumberToString (StringToNumber val) = val)).
Proof.
  intros H.
  destruct (H "NaN") as [_ Hback]; try discriminate.
  assert (Hnum : coerceValue "NaN" = SNum (StringToNumber "NaN"))
    by (apply Hback; vm_compute; reflexivity).
  vm_compute in Hnum. discriminate.
Qed.

(** C1, amended. On every text [coerceValue] answers one scalar: null
    exactly on null, the booleans exactly on true and false, the numeric
    conversion exactly when the text is none of these, the conversion is
    not NaN and its text is the input again, and the input itself in all
    other cases; so 42 becomes a number while 042, abc and the empty text
    stay strings. *)
Theorem coerceValue_spec :
  (∀ val : string,
     (coerceValue val = SNull ↔ val = "null") ∧
     (coerceValue val = SBool true ↔ val = "true") ∧
     (coerceValue val = SBool false ↔ val = "false") ∧
     (∀ n : number,
        coerceValue val = SNum n ↔
        val ≠ "null" ∧ val ≠ "true" ∧ val ≠ "false" ∧
        n = StringToNumber val ∧ isNaN n = false ∧ NumberToString n = val) ∧
     (∀ s : string,
        coerceValue val = SStr s ↔
        s = val ∧ val ≠ "null" ∧ val ≠ "true" ∧ val ≠ "false" ∧
        (isNaN (StringToNumber val) = true ∨
         NumberToString (StringToNumber val) ≠ val))) ∧
  coerceValue "42" = SNum (of_N 42) ∧
  coerceValue "042" = SStr "042" ∧
  coerceValue "abc" = SStr "abc" ∧
  coerceValue EmptyString = SStr EmptyString.
Proof.
  split; [|vm_compute; repeat split].
  intros val. unfold coerceValue.
  destruct (String.eqb_spec val "null") as [->|Hnull]; [close_case|].
  destruct (String.eqb_spec val "true") as [->|Htrue]; [close_case|].
  destruct (String.eqb_spec val "false") as [->|Hfalse]; [close_case|].
  cbv zeta.
  destruct (isNaN (StringToNumber val)) eqn:Hnan; cbn [negb andb].
  - close_case.
  - destruct (String.eqb_spec (NumberToString (StringToNumber val)) val)
      as [Hrt|Hrt]; close_case.
Qed.

(** ** The diff of an edit session against the rows *)

Lemma editable_key_Some (row : NodeRow) (k : string) :
  editable_key row = Some k ↔
  row_type row ≠ TArray ∧ row_type row ≠ TObject ∧
  row_key row = Some k ∧ k ≠ EmptyString.
Proof.
  unfold editable_key, truthy_key.
  destruct (row_type row), (row_key row) as [[|c s]|]; close_case.
Qed.

Lemma row_update_Some (session : gmap string string) (i : nat)
  (row : NodeRow) (u : Update) :
  row_update session i row = Some u ↔
  ∃ k pending,
    editable_key row = Some k ∧ session !! k = Some pending ∧
    pending ≠ ToString (row_value row) ∧
    u = {| upd_index := i; upd_value := coerceValue pending |}.
Proof.
  unfold row_update. split.
  - destruct (editable_key row) as [k|]; [|discriminate].
    destruct (session !! k) as [pending|] eqn:Hs; [|discriminate].
    destruct (String.eqb_spec (ToString (row_value row)) pending); [discriminate|].
    intros [= <-]. exists k, pending. auto.
  - intros (k & pending & -> & -> & Hne & ->).
    destruct (String.eqb_spec (ToString (row_value row)) pending); congruence.
Qed.

Lemma elem_of_computeUpdates (rows : list NodeRow)
  (session : gmap string string) (u : Update) :
  u ∈ computeUpdates rows session ↔
  ∃ i row, rows !! i = Some row ∧ row_update session i row = Some u.
Proof.
  unfold computeUpdates. rewrite list_elem_of_omap. split.
  - intros (o & Hin & Hid). simpl in Hid. subst o.
    apply list_elem_of_lookup in Hin as [i Hi].
    rewrite list_lookup_imap in Hi.
    destruct (rows !! i) as [row|] eqn:Hrow; [|discriminate].
    simpl in Hi. injection Hi as Hi. eauto.
  - intros (i & row & Hrow & Hu). exists (Some u). split; [|reflexivity].
    apply list_elem_of_lookup. exists i.
    rewrite list_lookup_imap, Hrow. simpl. now rewrite Hu.
Qed.

(** The updates a mapped list yields carry increasing indices when the
    callback stamps each with its position. *)
Lemma stamped_sorted (rows : list NodeRow)
  (f : nat → NodeRow → option Update) (n : nat) :
  (∀ i row u, f i row = Some u → upd_index u = n + i)%nat →
  StronglySorted lt (map upd_index (omap id (imap f rows))) ∧
  Forall (λ j, n ≤ j)%nat (map upd_index (omap id (imap f rows))).
Proof.
  revert f n. induction rows as [|row rows IH]; intros f n Hf.
  - split; constructor.
  - destruct (IH (f ∘ S) (S n)) as [Hsorted Hall].
    { intros i r u Hu. apply Hf in Hu. lia. }
    cbn [imap omap]. destruct (f 0%nat row) as [u|] eqn:Hu; cbn [id].
    + apply Hf in Hu. cbn [map]. split.
      * constructor; [exact Hsorted|].
        eapply Forall_impl; [exact Hall|]. intros j Hj. simpl in Hj. lia.
      * constructor; [lia|].
        eapply Forall_impl; [exact Hall|]. intros j Hj. simpl in Hj. lia.
    + split; [exact Hsorted|].
      eapply Forall_impl; [exact Hall|]. intros j Hj. simpl in Hj. lia.
Qed.

Lemma sorted_lt_NoDup (l : list nat) : StronglySorted lt l → NoDup l.
Proof.
  induction 1 as [|x l Hs IH Hall]; constructor; [|exact IH].
  intros Hin. rewrite Forall_forall in Hall. apply Hall in Hin. lia.
Qed.




(** ** The session seeded from the rows *)

Lemma foldl_seed_other (rows : list NodeRow) (m : gmap string string) (k : string) :
  k ∉ omap editable_key rows → foldl seed_row m rows !! k = m !! k.
Proof.
  revert m. induction rows as [|r rows IH]; intros m Hk; [reflexivity|].
  cbn [foldl]. simpl in Hk. unfold seed_row at 2.
  destruct (editable_key r) as [k'|].
  - apply not_elem_of_cons in Hk as [Hne Hk].
    rewrite IH by exact Hk.
    destruct (String.eqb k' "__proto__"); [reflexivity|].
    now rewrite lookup_insert_ne.
  - now apply IH.
Qed.

(** The setter ignores the texts handed to it: the seeding never gives
    the session an own property [__proto__]. *)
Lemma foldl_seed_proto (rows : list NodeRow) (m : gmap string string) :
  foldl seed_row m rows !! "__proto__" = m !! "__proto__".
Proof.
  revert m. induction rows as [|r rows IH]; intros m; [reflexivity|].
  cbn [foldl]. rewrite IH. unfold seed_row.
  destruct (editable_key r) as [k|]; [|reflexivity].
  destruct (String.eqb_spec k "__proto__") as [->|Hne]; [reflexivity|].
  now rewrite lookup_insert_ne.
Qed.

Lemma foldl_seed_lookup (rows : list NodeRow) (m : gmap string string)
  (i : nat) (row : NodeRow) (k : string) :
  NoDup (omap editable_key rows) →
  rows !! i = Some row →
  editable_key row = Some k →
  k ≠ "__proto__" →
  foldl seed_row m rows !! k =
  Some (ToString (nullish_or (row_value row) (SStr EmptyString))).
Proof.
  revert m i. induction rows as [|r rows IH]; intros m i Hnd Hrow Hk Hne.
  - discriminate.
  - cbn [foldl]. simpl in Hnd. destruct i as [|i].
    + injection Hrow as ->. unfold seed_row at 2. rewrite Hk in *.
      apply NoDup_cons in Hnd as [Hnotin _].
      rewrite foldl_seed_other by exact Hnotin.
      destruct (String.eqb_spec k "__proto__"); [contradiction|].
      apply lookup_insert_eq.
    + apply (IH _ i); [|exact Hrow|exact Hk|exact Hne].
      destruct (editable_key r); [now apply NoDup_cons in Hnd|exact Hnd].
Qed.

(** Where the editable rows carry distinct keys, none of them
    [__proto__], and no null value, the session seeded from the rows
    yields no update. *)
Lemma seeded_diff_empty (rows : list NodeRow) :
  NoDup (omap editable_key rows) →
  "__proto__" ∉ omap editable_key rows →
  (∀ row k, row ∈ rows → editable_key row = Some k → row_value row ≠ SNull) →
  computeUpdates rows (seedFields rows) = [].
Proof.
  intros Hnd Hproto Hvalues.
  destruct (computeUpdates rows (seedFields rows)) as [|u l] eqn:Hupd; [reflexivity|].
  assert (Hin : u ∈ computeUpdates rows (seedFields rows))
    by (rewrite Hupd; left).
  apply elem_of_computeUpdates in Hin as (i & row & Hrow & Hu).
  apply row_update_Some in Hu as (k & pending & Hk & Hs & Hne & _).
  unfold seedFields in Hs.
  assert (Hkp : k ≠ "__proto__").
  { intros ->. rewrite foldl_seed_proto in Hs. discriminate. }
  rewrite (foldl_seed_lookup rows ∅ i row k Hnd Hrow Hk Hkp) in Hs.
  injection Hs as <-.
  assert (Hv : row_value row ≠ SNull).
  { apply (Hvalues row k); [|exact Hk]. apply list_elem_of_lookup. eauto. }
  destruct (row_value row); try contradiction; now destruct Hne.
Qed.

(** C3 at a row whose value is null: entering edit mode seeds the
    session with the empty text for that row, the diff compares it with
    the text null, and without any edit it holds an update that turns
    the null into the empty string. *)
Theorem seeded_diff_null_row :
  seedFields [Scenario.null_row] !! "a" = Some EmptyString ∧
  ToString (row_value Scenario.null_row) = "null" ∧
  computeUpdates [Scenario.null_row] (seedFields [Scenario.null_row]) =
  [ {| upd_index := 0; upd_value := SStr EmptyString |} ].
Proof. vm_compute. repeat split. Qed.

(** ** Saving *)

(** C7. When the diff of the selected node is empty, the save handler
    only leaves edit mode: the store action is not called, the document
    text is neither parsed nor written, no node view is re-read, nothing
    is scheduled or logged, and every other part of the state is as it
    was. *)
Theorem handleSaveClick_empty_diff
  (updateNodeValues : option (string → list Update → GraphState → GraphState))
  (w : World) (nodeData : NodeData) :
  selectedNode (graph w) = Some nodeData →
  computeUpdates (node_text nodeData) (editFields w) = [] →
  handleSaveClick updateNodeValues w = (Val tt, set_isEditing false w) ∧
  let w' := snd (handleSaveClick updateNodeValues w) in
  isEditing w' = false ∧ trace w' = trace w ∧ graph w' = graph w ∧
  contents w' = contents w ∧ timers w' = timers w ∧
  refreshKey w' = refreshKey w ∧ codeRefreshKey w' = codeRefreshKey w.
Proof.
  intros Hsel Hdiff.
  assert (Hrun : handleSaveClick updateNodeValues w = (Val tt, set_isEditing false w)).
  { unfold handleSaveClick, bind, gets. rewrite Hsel, Hdiff. reflexivity. }
  split; [exact Hrun|]. rewrite Hrun. repeat split.
Qed.

(** The customer node entered in edit mode and saved untouched. *)
Lemma handleSaveClick_empty_diff_witness :
  handleSaveClick (Some Scenario.updateValues) Scenario.untouched =
  (Val tt, set_isEditing false Scenario.untouched).
Proof.
  apply (handleSaveClick_empty_diff (Some Scenario.updateValues)
           Scenario.untouched (Scenario.customer_node (Some [SKey "customer"]))).
  - reflexivity.
  - vm_compute. reflexivity.
Defined.

(** The run of the [try] body, case by case. *)
Lemma syncBody_run (nodeData : NodeData) (updates : list Update) (w : World) :
  syncBody nodeData updates w =
  match JSON.parse (contents w) with
  | Throw e => (Throw e, log (EvJSONParse (contents w)) w)
  | Val parsed =>
      match find_node (node_id nodeData) (nodes (graph w)) with
      | Some nodeToUpdate =>
          match node_path nodeToUpdate with
          | Some path =>
              match applyUpdates parsed path (node_text nodeToUpdate) updates with
              | Throw e => (Throw e, log (EvJSONParse (contents w)) w)
              | Val parsed' =>
                  match JSON.stringify parsed' with
                  | Some updatedJson =>
                      (Val tt,
                       set_contents updatedJson
                         (log (EvSetContents updatedJson false)
                            (log (EvJSONParse (contents w)) w)))
                  | None => (Val tt, log (EvJSONParse (contents w)) w)
                  end
              end
          | None => (Val tt, log (EvJSONParse (contents w)) w)
          end
      | None => (Val tt, log (EvJSONParse (contents w)) w)
      end
  end.
Proof.
  unfold syncBody, bind, gets, JSON_parse, lift, ret. cbn [contents log graph].
  destruct (JSON.parse (contents w)) as [parsed|e]; [|reflexivity].
  destruct (find_node (node_id nodeData) (nodes (graph w))) as [n|]; [|reflexivity].
  destruct (node_path n) as [path|]; [|reflexivity].
  destruct (applyUpdates parsed path (node_text n) updates) as [parsed'|e];
    [|reflexivity].
  destruct (JSON.stringify parsed'); reflexivity.
Qed.

(** What follows the [try] statement: the selected node is re-read from
    the store, both refresh keys are bumped and leaving edit mode is
    scheduled. *)
Lemma after_sync_run (nodeData : NodeData) (w : World) :
  ∃ w',
    bind (refreshSelectedNode nodeData)
      (λ _, bind (setRefreshKey (λ prev, prev + 1)%N)
         (λ _, bind (setCodeRefreshKey (λ prev, prev + 1)%N)
            (λ _, setTimeout (CbSetIsEditing false) 100))) w = (Val tt, w') ∧
    contents w' = contents w ∧
    nodes (graph w') = nodes (graph w) ∧
    trace w' =
      trace w ++ refresh_events (node_id nodeData) (nodes (graph w)) ++
      [EvSetTimeout (CbSetIsEditing false) 100] ∧
    timers w' = timers w ++ [(CbSetIsEditing false, 100%N)] ∧
    isEditing w' = isEditing w ∧
    refreshKey w' = (refreshKey w + 1)%N ∧
    codeRefreshKey w' = (codeRefreshKey w + 1)%N.
Proof.
  unfold refreshSelectedNode, refresh_events, bind, gets.
  destruct (find_node (node_id nodeData) (nodes (graph w))) as [n|].
  - eexists. split; [reflexivity|]. cbn. rewrite <- app_assoc. repeat split.
  - eexists. split; [reflexivity|]. cbn. repeat split.
Qed.

(** A save with a non-empty diff: the store action, the guarded
    synchronisation, then the refresh. *)
Lemma handleSaveClick_nonempty
  (update : string → list Update → GraphState → GraphState)
  (w : World) (nodeData : NodeData) :
  selectedNode (graph w) = Some nodeData →
  computeUpdates (node_text nodeData) (editFields w) ≠ [] →
  handleSaveClick (Some update) w =
  let updates := computeUpdates (node_text nodeData) (editFields w) in
  let w1 := set_graph (update (node_id nodeData) updates (graph w))
              (log (EvUpdateNodeValues (node_id nodeData) updates) w) in
  bind (try_catch (syncBody nodeData updates)
          (λ error, console_error "Failed to sync to text editor:" error))
    (λ _, bind (refreshSelectedNode nodeData)
       (λ _, bind (setRefreshKey (λ prev, prev + 1)%N)
          (λ _, bind (setCodeRefreshKey (λ prev, prev + 1)%N)
             (λ _, setTimeout (CbSetIsEditing false) 100)))) w1.
Proof.
  intros Hsel Hne. unfold handleSaveClick at 1.
  unfold bind at 1. unfold gets at 1. rewrite Hsel.
  unfold bind at 1. unfold gets at 1.
  destruct (computeUpdates (node_text nodeData) (editFields w)) as [|u us];
    [contradiction|].
  reflexivity.
Qed.

Lemma fire_timers_last (w : World) (l : list (callback * N)) (b : bool) (d : N) :
  timers w = l ++ [(CbSetIsEditing b, d)] → isEditing (fire_timers w) = b.
Proof.
  intros Ht. unfold fire_timers. rewrite Ht, foldl_app. reflexivity.
Qed.

(** C2. When the synchronisation fails, because the stored text does not
    parse or because walking the path of the stored node and assigning
    through it throws, the save handler still completes normally: the
    exception is caught and reported to the console, the document text
    is left as it was, and the node store keeps the state the update
    action produced. The trace shows the calls made, in order. *)
Theorem handleSaveClick_sync_failure
  (update : string → list Update → GraphState → GraphState)
  (w : World) (nodeData : NodeData) (e : exn) :
  selectedNode (graph w) = Some nodeData →
  let updates := computeUpdates (node_text nodeData) (editFields w) in
  let stored := update (node_id nodeData) updates (graph w) in
  updates ≠ [] →
  (JSON.parse (contents w) = Throw e ∨
   ∃ parsed nodeToUpdate path,
     JSON.parse (contents w) = Val parsed ∧
     find_node (node_id nodeData) (nodes stored) = Some nodeToUpdate ∧
     node_path nodeToUpdate = Some path ∧
     applyUpdates parsed path (node_text nodeToUpdate) updates = Throw e) →
  ∃ w',
    handleSaveClick (Some update) w = (Val tt, w') ∧
    contents w' = contents w ∧
    nodes (graph w') = nodes stored ∧
    trace w' =
      trace w ++
      [EvUpdateNodeValues (node_id nodeData) updates;
       EvJSONParse (contents w);
       EvConsoleError "Failed to sync to text editor:" e] ++
      refresh_events (node_id nodeData) (nodes stored) ++
      [EvSetTimeout (CbSetIsEditing false) 100] ∧
    isEditing (fire_timers w') = false.
Proof.
  intros Hsel updates stored Hne Hfail.
  rewrite (handleSaveClick_nonempty update w nodeData Hsel Hne).
  fold updates. cbv zeta.
  set (w1 := set_graph _ _).
  assert (Hsync : syncBody nodeData updates w1 =
                  (Throw e, log (EvJSONParse (contents w)) w1)).
  { rewrite syncBody_run. subst w1. cbn [contents set_graph log graph].
    fold stored. destruct Hfail as [-> | (parsed & n & path & -> & -> & -> & ->)];
      reflexivity. }
  unfold bind at 1. unfold try_catch. rewrite Hsync.
  unfold console_error, modify.
  destruct (after_sync_run nodeData
              (log (EvConsoleError "Failed to sync to text editor:" e)
                 (log (EvJSONParse (contents w)) w1)))
    as (w' & Hrun & Hc & Hn & Ht & Htm & _).
  exists w'. split; [exact Hrun|].
  rewrite Hc, Hn, Ht. subst w1. cbn [contents nodes graph trace log set_graph].
  fold stored. repeat split.
  - rewrite <- !app_assoc. reflexivity.
  - eapply fire_timers_last. exact Htm.
Qed.

(** The failure example: the stored node has the path missing, x, which
    the customer document does not have. *)
Lemma handleSaveClick_sync_failure_witness :
  ∃ w',
    handleSaveClick (Some Scenario.updateValues) Scenario.unresolved_path =
    (Val tt, w') ∧
    contents w' = Scenario.customer_text ∧
    nodes (graph w') =
    nodes (Scenario.updateValues "2"
             (computeUpdates Scenario.customer_rows Scenario.age_31)
             (graph Scenario.unresolved_path)) ∧
    EvConsoleError "Failed to sync to text editor:" TypeError ∈ trace w'.
Proof.
  destruct (handleSaveClick_sync_failure Scenario.updateValues
              Scenario.unresolved_path
              (Scenario.customer_node (Some [SKey "customer"])) TypeError)
    as (w' & Hrun & Hc & Hn & Ht & _).
  - reflexivity.
  - vm_compute. discriminate.
  - right. eexists _, _, _. repeat split; vm_compute; reflexivity.
  - exists w'. split; [exact Hrun|]. split; [exact Hc|]. split; [exact Hn|].
    rewrite Ht. apply elem_of_app. right.
    apply elem_of_app. left. right. right. left.
Defined.

(** C10, as stated, fails when the stored text does not parse: the text
    is parsed before the node is looked up, so a save whose node is
    missing from the store still reports a SyntaxError to the console. *)
Lemma handleSaveClick_missing_node_counterexample :
  ¬ (∀ (update : string → list Update → GraphState → GraphState)
       (w : World) (nodeData : NodeData),
       selectedNode (graph w) = Some nodeData →
       computeUpdates (node_text nodeData) (editFields w) ≠ [] →
       (find_node (node_id nodeData)
          (nodes (update (node_id nodeData)
                    (computeUpdates (node_text nodeData) (editFields w))
                    (graph w))) = None ∨
        ∃ n, find_node (node_id nodeData)
               (nodes (update (node_id nodeData)
                         (computeUpdates (node_text nodeData) (editFields w))
                         (graph w))) = Some n ∧
             node_path n = None) →
       ∀ message error,
         EvConsoleError message error
         ∉ trace (snd (handleSaveClick (Some update) w))).
Proof.
  intros H.
  apply (H Scenario.updateValues Scenario.missing_node
           (Scenario.customer_node (Some [SKey "customer"]))
           eq_refl) with (message := "Failed to sync to text editor:")
                         (error := SyntaxError).
  - vm_compute. discriminate.
  - left. reflexivity.
  - vm_compute. right. right. left.
Qed.

(** C10, amended. With a non-empty diff and a stored text that parses,
    if the store holds no node with the identifier of the edited node,
    or the node it holds has no path, the synchronisation is skipped in
    silence: the text is parsed but not written, nothing is reported to
    the console, the node store keeps the state the update action
    produced, and the scheduled callback leaves edit mode. *)
Theorem handleSaveClick_sync_skipped
  (update : string → list Update → GraphState → GraphState)
  (w : World) (nodeData : NodeData) (parsed : value) :
  selectedNode (graph w) = Some nodeData →
  let updates := computeUpdates (node_text nodeData) (editFields w) in
  let stored := update (node_id nodeData) updates (graph w) in
  updates ≠ [] →
  JSON.parse (contents w) = Val parsed →
  (find_node (node_id nodeData) (nodes stored) = None ∨
   ∃ n, find_node (node_id nodeData) (nodes stored) = Some n ∧
        node_path n = None) →
  ∃ w',
    handleSaveClick (Some update) w = (Val tt, w') ∧
    contents w' = contents w ∧
    nodes (graph w') = nodes stored ∧
    trace w' =
      trace w ++
      [EvUpdateNodeValues (node_id nodeData) updates;
       EvJSONParse (contents w)] ++
      refresh_events (node_id nodeData) (nodes stored) ++
      [EvSetTimeout (CbSetIsEditing false) 100] ∧
    isEditing (fire_timers w') = false.
Proof.
  intros Hsel updates stored Hne Hparse Hskip.
  rewrite (handleSaveClick_nonempty update w nodeData Hsel Hne).
  fold updates. cbv zeta.
  set (w1 := set_graph _ _).
  assert (Hsync : syncBody nodeData updates w1 =
                  (Val tt, log (EvJSONParse (contents w)) w1)).
  { rewrite syncBody_run. subst w1. cbn [contents set_graph log graph].
    fold stored. rewrite Hparse.
    destruct Hskip as [-> | (n & -> & ->)]; reflexivity. }
  unfold bind at 1. unfold try_catch. rewrite Hsync.
  destruct (after_sync_run nodeData (log (EvJSONParse (contents w)) w1))
    as (w' & Hrun & Hc & Hn & Ht & Htm & _).
  exists w'. split; [exact Hrun|].
  rewrite Hc, Hn, Ht. subst w1. cbn [contents nodes graph trace log set_graph].
  fold stored. repeat split.
  - rewrite <- !app_assoc. reflexivity.
  - eapply fire_timers_last. exact Htm.
Qed.

(** The stored customer node has no path. *)
Lemma handleSaveClick_sync_skipped_witness :
  ∃ w',
    handleSaveClick (Some Scenario.updateValues) Scenario.pathless_node =
    (Val tt, w') ∧
    contents w' = Scenario.customer_text ∧
    isEditing (fire_timers w') = false.
Proof.
  destruct (handleSaveClick_sync_skipped Scenario.updateValues
              Scenario.pathless_node
              (Scenario.customer_node (Some [SKey "customer"]))
              Scenario.customer_tree)
    as (w' & Hrun & Hc & _ & _ & Hf).
  - reflexivity.
  - vm_compute. discriminate.
  - vm_compute. reflexivity.
  - right. eexists. split; vm_compute; reflexivity.
  - exists w'. auto.
Defined.

(** ** Walking the path *)

Lemma navigate_app (t : value) (p1 p2 : list segment) :
  navigate t (p1 ++ p2) =
  match navigate t p1 with
  | Val v => navigate v p2
  | Throw e => Throw e
  end.
Proof.
  revert t. induction p1 as [|seg p1 IH]; intros t; [reflexivity|].
  cbn [navigate app]. destruct (get t (seg_key seg)); [apply IH | reflexivity].
Qed.

(** A lookup on a value that is no array and no object throws a
    TypeError or yields a value of the same sort. *)
Lemma get_non_container (v : value) (k : string) :
  is_container v = false →
  get v k = Throw TypeError ∨
  ∃ v', get v k = Val v' ∧ is_container v' = false.
Proof.
  destruct v as [| | b | n | s | l | o]; intros Hv; try discriminate; cbn [get];
    try (left; reflexivity); try (right; eexists; split; reflexivity).
  destruct (array_index k) as [i|].
  - destruct (String.get (N.to_nat i) s); right; eexists; split; reflexivity.
  - destruct (String.eqb k "length"); right; eexists; split; reflexivity.
Qed.

Lemma navigate_non_container (v : value) (p : list segment) :
  is_container v = false →
  navigate v p = Throw TypeError ∨
  ∃ v', navigate v p = Val v' ∧ is_container v' = false.
Proof.
  revert v. induction p as [|seg p IH]; intros v Hv.
  - right. exists v. split; [reflexivity | exact Hv].
  - cbn [navigate].
    destruct (get_non_container v (seg_key seg) Hv) as [-> | (v' & -> & Hv')];
      [left; reflexivity | now apply IH].
Qed.

Lemma assignUpdates_non_container (v : value) (rows : list NodeRow)
  (updates : list Update) :
  is_container v = false →
  applicable rows updates →
  assignUpdates v rows updates = Throw TypeError.
Proof.
  intros Hv (u & row & k & Hin & Hrow & Hk & _).
  induction updates as [|u' updates IH]; [inversion Hin|].
  cbn [assignUpdates].
  destruct (rows !! upd_index u') as [row'|] eqn:Hrow'.
  - destruct (truthy_key (row_key row')) as [k'|] eqn:Hk'.
    + destruct v; try discriminate; reflexivity.
    + apply IH. apply elem_of_cons in Hin as [->|Hin]; [congruence | exact Hin].
  - apply IH. apply elem_of_cons in Hin as [->|Hin]; [congruence | exact Hin].
Qed.

(** C5, as stated, fails when no update names a keyed row of the stored
    node: the lookup of a under the root yields the number 5 before the
    path is exhausted, the next lookup yields undefined, no assignment
    is made, and the patch completes and the text is written. *)
Lemma applyUpdates_no_assignment_counterexample :
  ¬ (∀ (parsed : value) (p1 p2 : list segment) (v : value)
       (rows : list NodeRow) (updates : list Update),
       p2 ≠ [] →
       navigate parsed p1 = Val v →
       is_container v = false →
       ∃ e, applyUpdates parsed (p1 ++ p2) rows updates = Throw e) ∧
  EvSetContents Scenario.five_pretty false
  ∈ trace (snd (handleSaveClick (Some Scenario.updateValues) Scenario.stale_rows)).
Proof.
  split.
  - intros H.
    destruct (H Scenario.five_tree [SKey "a"] [SKey "b"] (VNum (of_N 5)) []
                [ {| upd_index := 0; upd_value := SStr "x" |} ])
      as [e He]; try discriminate; try reflexivity.
  - vm_compute. right. right. left.
Qed.

(** C5, amended. Let the walk along the path stay within the model (no
    lookup finds its name on a built-in prototype, every index is below
    [2^53]), and let some update name a row of the stored node that has
    a non-empty key other than [__proto__]. If walking a
    prefix of the path then yields a value that is no array and no
    object (undefined for a missing key or an index out of range, null,
    or another primitive), the patch throws a TypeError, and the [try]
    body ends with that exception having parsed the text and written
    nothing. *)
Theorem applyUpdates_path_resolution_error
  (w : World) (nodeData nodeToUpdate : NodeData) (updates : list Update)
  (parsed : value) (p1 p2 : list segment) (v : value) :
  JSON.parse (contents w) = Val parsed →
  find_node (node_id nodeData) (nodes (graph w)) = Some nodeToUpdate →
  node_path nodeToUpdate = Some (p1 ++ p2) →
  unmodelled_walk parsed (p1 ++ p2) = false →
  navigate parsed p1 = Val v →
  is_container v = false →
  applicable (node_text nodeToUpdate) updates →
  applyUpdates parsed (p1 ++ p2) (node_text nodeToUpdate) updates = Throw TypeError ∧
  syncBody nodeData updates w = (Throw TypeError, log (EvJSONParse (contents w)) w).
Proof.
  intros Hparse Hfind Hpath _ Hnav Hv Happ.
  assert (Hpatch : applyUpdates parsed (p1 ++ p2) (node_text nodeToUpdate) updates
                   = Throw TypeError).
  { unfold applyUpdates. rewrite navigate_app, Hnav.
    destruct (navigate_non_container v p2 Hv) as [-> | (v' & -> & Hv')];
      [reflexivity|].
    now rewrite assignUpdates_non_container. }
  split; [exact Hpatch|].
  now rewrite syncBody_run, Hparse, Hfind, Hpath, Hpatch.
Qed.

(** The lookup of missing in the customer document yields undefined
    before the path is exhausted; neither missing nor x is a name of
    [Object.prototype]. *)
Lemma applyUpdates_path_resolution_error_witness :
  applyUpdates Scenario.customer_tree [SKey "missing"; SKey "x"]
    Scenario.customer_rows (computeUpdates Scenario.customer_rows Scenario.age_31)
  = Throw TypeError.
Proof.
  apply (applyUpdates_path_resolution_error
           Scenario.unresolved_path
           (Scenario.customer_node (Some [SKey "customer"]))
           (Scenario.customer_node (Some [SKey "missing"; SKey "x"]))
           (computeUpdates Scenario.customer_rows Scenario.age_31)
           Scenario.customer_tree [SKey "missing"] [SKey "x"] VUndefined).
  - vm_compute. reflexivity.
  - vm_compute. reflexivity.
  - reflexivity.
  - reflexivity.
  - reflexivity.
  - reflexivity.
  - exists {| upd_index := 1; upd_value := coerceValue "31" |},
      {| row_key := Some "age"; row_value := SNum (of_N 30); row_type := TNumber |},
      "age".
    split; [vm_compute; left | split; [reflexivity | split; [reflexivity | discriminate]]].
Defined.

(** The walk of the customer document along constructor is one the
    statement leaves out: the code reads the function [Object] there.
    After a lookup that yields undefined the next one throws, whatever
    its name. *)
Lemma unmodelled_walk_examples :
  unmodelled_walk Scenario.customer_tree [SKey "constructor"] = true ∧
  unmodelled_walk Scenario.customer_tree [SKey "customer"; SKey "name"; SKey "at"] = true ∧
  unmodelled_walk Scenario.five_tree [SKey "a"; SKey "toString"] = true ∧
  unmodelled_walk Scenario.customer_tree [SKey "customer"; SKey "name"; SIdx 7; SKey "x"] = false ∧
  unmodelled_walk Scenario.customer_tree [SKey "missing"; SKey "constructor"] = false ∧
  unmodelled_walk Scenario.customer_tree [SKey "customer"; SIdx (2 ^ 53)] = true.
Proof. vm_compute. repeat split. Qed.

(** ** Assignments on an object *)

Lemma obj_lookup_replace_eq (k : string) (v w : value) (o : list (string * value)) :
  obj_lookup k o = Some w → obj_lookup k (obj_replace k v o) = Some v.
Proof.
  induction o as [|[k' v'] o IH]; cbn [obj_lookup obj_replace]; [discriminate|].
  destruct (String.eqb_spec k k') as [->|Hne]; intros H.
  - cbn [obj_lookup]. now rewrite String.eqb_refl.
  - cbn [obj_lookup]. destruct (String.eqb_spec k k'); [contradiction | auto].
Qed.

Lemma obj_lookup_replace_ne (k k' : string) (v : value) (o : list (string * value)) :
  k ≠ k' → obj_lookup k' (obj_replace k v o) = obj_lookup k' o.
Proof.
  intros Hne. induction o as [|[k0 v0] o IH]; cbn [obj_lookup obj_replace];
    [reflexivity|].
  destruct (String.eqb_spec k k0) as [->|Hk]; cbn [obj_lookup].
  - destruct (String.eqb_spec k' k0); [congruence | reflexivity].
  - destruct (String.eqb_spec k' k0); [reflexivity | exact IH].
Qed.

Lemma obj_lookup_insert_index_eq (i : N) (k : string) (v : value)
  (o : list (string * value)) :
  obj_lookup k o = None → obj_lookup k (obj_insert_index i k v o) = Some v.
Proof.
  induction o as [|[k' v'] o IH]; cbn [obj_lookup obj_insert_index]; intros H.
  - now rewrite String.eqb_refl.
  - destruct (String.eqb_spec k k') as [->|Hne]; [discriminate|].
    destruct (array_index k') as [j|]; [destruct (j <? i)%N|];
      cbn [obj_lookup]; rewrite ?String.eqb_refl; try reflexivity.
    destruct (String.eqb_spec k k'); [contradiction | auto].
Qed.

Lemma obj_lookup_insert_index_ne (i : N) (k k' : string) (v : value)
  (o : list (string * value)) :
  k ≠ k' → obj_lookup k' (obj_insert_index i k v o) = obj_lookup k' o.
Proof.
  intros Hne. induction o as [|[k0 v0] o IH]; cbn [obj_lookup obj_insert_index].
  - destruct (String.eqb_spec k' k); [congruence | reflexivity].
  - destruct (array_index k0) as [j|]; [destruct (j <? i)%N|]; cbn [obj_lookup].
    + destruct (String.eqb_spec k' k0); [reflexivity | exact IH].
    + destruct (String.eqb_spec k' k); [congruence | reflexivity].
    + destruct (String.eqb_spec k' k); [congruence | reflexivity].
Qed.

Lemma obj_lookup_app (k : string) (o o' : list (string * value)) :
  obj_lookup k (o ++ o') =
  match obj_lookup k o with
  | Some v => Some v
  | None => obj_lookup k o'
  end.
Proof.
  induction o as [|[k0 v0] o IH]; cbn [obj_lookup app]; [reflexivity|].
  destruct (String.eqb k k0); [reflexivity | exact IH].
Qed.

Lemma obj_lookup_set_eq (k : string) (v : value) (o : list (string * value)) :
  obj_lookup k (obj_set k v o) = Some v.
Proof.
  unfold obj_set. destruct (obj_lookup k o) as [w|] eqn:Hk.
  - eapply obj_lookup_replace_eq. exact Hk.
  - destruct (array_index k).
    + now apply obj_lookup_insert_index_eq.
    + rewrite obj_lookup_app, Hk. cbn [obj_lookup]. now rewrite String.eqb_refl.
Qed.

Lemma obj_lookup_set_ne (k k' : string) (v : value) (o : list (string * value)) :
  k ≠ k' → obj_lookup k' (obj_set k v o) = obj_lookup k' o.
Proof.
  intros Hne. unfold obj_set. destruct (obj_lookup k o) as [w|].
  - now apply obj_lookup_replace_ne.
  - destruct (array_index k).
    + now apply obj_lookup_insert_index_ne.
    + rewrite obj_lookup_app. destruct (obj_lookup k' o); [reflexivity|].
      cbn [obj_lookup]. destruct (String.eqb_spec k' k); [congruence | reflexivity].
Qed.

Lemma assignUpdates_object (o : list (string * value)) (rows : list NodeRow)
  (updates : list Update) :
  assignUpdates (VObj o) rows updates = Val (VObj (set_all (resolve rows updates) o)).
Proof.
  revert o. induction updates as [|u updates IH]; intros o; [reflexivity|].
  cbn [assignUpdates]. unfold resolve. simpl omap. fold (resolve rows updates).
  destruct (rows !! upd_index u) as [row|]; [|apply IH].
  destruct (truthy_key (row_key row)) as [k|]; [|apply IH].
  cbn [assign]. rewrite IH. reflexivity.
Qed.







Lemma set_all_untouched (l o : list (string * value)) (k : string) :
  to_map l !! k = None → obj_lookup k (set_all l o) = obj_lookup k o.
Proof.
  revert o. induction l as [|[k0 v0] l IH]; intros o Hk; [reflexivity|].
  cbn [to_map] in Hk. apply lookup_union_None in Hk as [Hl Hs].
  apply lookup_singleton_None in Hs.
  unfold set_all. cbn [foldl fst snd]. fold (set_all l (obj_set k0 v0 o)).
  rewrite IH by exact Hl. now apply obj_lookup_set_ne.
Qed.

Lemma set_all_lookup (l o : list (string * value)) (k : string) (v : value) :
  to_map l !! k = Some v → obj_lookup k (set_all l o) = Some v.
Proof.
  revert o. induction l as [|[k0 v0] l IH]; intros o Hk; [discriminate|].
  cbn [to_map] in Hk.
  unfold set_all. cbn [foldl fst snd]. fold (set_all l (obj_set k0 v0 o)).
  apply lookup_union_Some_raw in Hk as [Hk | [Hnone Hk]].
  - now apply IH.
  - apply lookup_singleton_Some in Hk as [<- <-].
    rewrite set_all_untouched by exact Hnone. apply obj_lookup_set_eq.
Qed.



(** ** The tree after the patch *)

Lemma navigate_stays_outside (v : value) (p : list segment)
  (o : list (string * value)) :
  is_container v = false → navigate v p ≠ Val (VObj o).
Proof.
  intros Hv Hnav.
  destruct (navigate_non_container v p Hv) as [He | (v' & He & Hv')];
    rewrite He in Hnav; [discriminate|].
  injection Hnav as ->. discriminate.
Qed.

(** A path that ends on an object went, at each step, through an own
    property of an object or an element of an array. *)
Lemma navigate_step_inside (t : value) (seg : segment) (p : list segment)
  (o : list (string * value)) :
  navigate t (seg :: p) = Val (VObj o) →
  (∃ o0 child,
     t = VObj o0 ∧ obj_lookup (seg_key seg) o0 = Some child ∧
     navigate child p = Val (VObj o)) ∨
  (∃ l i child,
     t = VArr l ∧ array_index (seg_key seg) = Some i ∧
     l !! N.to_nat i = Some child ∧ navigate child p = Val (VObj o)).
Proof.
  cbn [navigate].
  destruct t as [| | b | n | s | l | o0]; cbn [get]; try discriminate.
  - intros H. now apply navigate_stays_outside in H.
  - intros H. now apply navigate_stays_outside in H.
  - intros H. exfalso.
    destruct (array_index (seg_key seg)) as [i|];
      [destruct (String.get (N.to_nat i) s) | destruct (String.eqb (seg_key seg) "length")];
      now apply navigate_stays_outside in H.
  - destruct (array_index (seg_key seg)) as [i|].
    + destruct (l !! N.to_nat i) as [child|] eqn:Hchild; cbn [default]; intros H.
      * right. exists l, i, child. auto.
      * now apply navigate_stays_outside in H.
    + intros H. exfalso.
      destruct (String.eqb (seg_key seg) "length");
        now apply navigate_stays_outside in H.
  - destruct (obj_lookup (seg_key seg) o0) as [child|] eqn:Hchild; cbn [default];
      intros H.
    + left. exists o0, child. auto.
    + now apply navigate_stays_outside in H.
Qed.


(** Walking the path in the rebuilt tree reaches the new object. *)
Lemma navigate_plug (t : value) (p : list segment) (o : list (string * value))
  (new : value) :
  navigate t p = Val (VObj o) → navigate (plug t p new) p = Val new.
Proof.
  revert t. induction p as [|seg p IH]; intros t Hnav; [reflexivity|].
  destruct (navigate_step_inside t seg p o Hnav)
    as [(o0 & child & -> & Hchild & Hrest) | (l & i & child & -> & Hi & Hchild & Hrest)].
  - cbn [plug navigate get]. rewrite Hchild. cbn [navigate get].
    rewrite (obj_lookup_replace_eq _ _ child) by exact Hchild. cbn [default].
    now apply IH.
  - cbn [plug navigate get]. rewrite Hi, Hchild. cbn [navigate get]. rewrite Hi.
    rewrite list_lookup_insert_eq by (eapply lookup_lt_Some; exact Hchild).
    cbn [default]. now apply IH.
Qed.




(** ** The object the row normaliser builds *)

Lemma foldl_add_row (rows : list NodeRow) (obj : plain) :
  own (foldl add_row obj rows) =
  set_all (own_entries (has_prototype obj) rows) (own obj).
Proof.
  revert obj. induction rows as [|row rows IH]; intros obj; [reflexivity|].
  cbn [foldl own_entries]. rewrite IH. unfold add_row.
  destruct (editable_key row) as [k|]; [|reflexivity].
  unfold plain_set.
  destruct (String.eqb k "__proto__" && has_prototype obj) eqn:Hset.
  - apply andb_prop in Hset as [_ Hp].
    destruct (row_value row); cbn [own has_prototype]; rewrite ?Hp; reflexivity.
  - reflexivity.
Qed.

Lemma row_object_set_all (rows : list NodeRow) :
  row_object rows = set_all (own_entries true rows) [].
Proof. unfold row_object. now rewrite foldl_add_row. Qed.

Lemma set_all_from_empty (l : list (string * value)) (k : string) :
  obj_lookup k (set_all l []) = to_map l !! k.
Proof.
  destruct (to_map l !! k) as [v|] eqn:Hk.
  - now apply set_all_lookup.
  - now rewrite set_all_untouched.
Qed.

Lemma to_map_entries (rows : list NodeRow) (k : string) :
  to_map (omap entry rows) !! k = of_scalar <$> last_value rows k.
Proof.
  unfold last_value. induction rows as [|row rows IH]; [reflexivity|].
  rewrite filter_cons.
  change (omap entry (row :: rows))
    with (match entry row with
          | Some e => e :: omap entry rows
          | None => omap entry rows
          end).
  unfold entry at 1.
  destruct (decide (editable_key row = Some k)) as [Hk|Hk].
  - rewrite Hk. cbn [to_map]. rewrite lookup_union, IH, last_cons.
    rewrite lookup_singleton_eq.
    destruct (last (filter (λ row0, editable_key row0 = Some k) rows)); reflexivity.
  - destruct (editable_key row) as [k'|]; [|exact IH].
    cbn [to_map]. rewrite lookup_union, IH.
    rewrite lookup_singleton_ne by congruence.
    destruct (last (filter (λ row0, editable_key row0 = Some k) rows)); reflexivity.
Qed.

Lemma to_map_None (l : list (string * value)) (k : string) :
  to_map l !! k = None ↔ k ∉ map fst l.
Proof.
  induction l as [|[k0 v0] l IH]; cbn [to_map map fst].
  - rewrite lookup_empty. split; [intros _ H; inversion H | reflexivity].
  - rewrite lookup_union_None, lookup_singleton_None, IH, not_elem_of_cons.
    split; intros [? ?]; split; auto.
Qed.

Lemma array_index_digits (k : string) (i : N) :
  array_index k = Some i → digits_of i = k.
Proof.
  unfold array_index.
  destruct (take_digits 10 (list_ascii_of_string k) 0%N 0) as [[j cnt] [|c r]];
    [|discriminate].
  destruct ((0 <? cnt) && (j <? 4294967295)%N); [|discriminate].
  destruct (String.eqb_spec (digits_of j) k); [|discriminate].
  now intros [= <-].
Qed.

Lemma array_index_inj (k k' : string) (i : N) :
  array_index k = Some i → array_index k' = Some i → k = k'.
Proof.
  intros H H'. apply array_index_digits in H, H'. congruence.
Qed.

Lemma keys_replace (k : string) (v : value) (o : list (string * value)) :
  map fst (obj_replace k v o) = map fst o.
Proof.
  induction o as [|[k' v'] o IH]; [reflexivity|].
  cbn [obj_replace]. destruct (String.eqb k k'); cbn [map fst]; now rewrite ?IH.
Qed.

Lemma obj_lookup_None_keys (k : string) (o : list (string * value)) :
  obj_lookup k o = None ↔ k ∉ map fst o.
Proof.
  induction o as [|[k' v'] o IH]; cbn [obj_lookup map fst].
  - split; [intros _ H; inversion H | reflexivity].
  - rewrite not_elem_of_cons.
    destruct (String.eqb_spec k k') as [->|Hne]; [split; [discriminate | tauto]|].
    rewrite IH. tauto.
Qed.

(** A new index key enters the sorted indices at its place. *)
Lemma keys_insert_index (i : N) (k : string) (v : value)
  (idx rest : list string) (o : list (string * value)) :
  array_index k = Some i →
  map fst o = idx ++ rest →
  k ∉ idx →
  Forall (λ k, array_index k ≠ None) idx →
  StronglySorted index_lt idx →
  Forall (λ k, array_index k = None) rest →
  ∃ idx',
    map fst (obj_insert_index i k v o) = idx' ++ rest ∧
    (∀ x, x ∈ idx' → x = k ∨ x ∈ idx) ∧
    Forall (λ k, array_index k ≠ None) idx' ∧
    StronglySorted index_lt idx'.
Proof.
  intros Hk. revert o.
  induction idx as [|k0 idx IH]; intros o Ho Hnotin Hidx Hsorted Hrest.
  - exists [k]. cbn [app] in *. split; [|split; [|split]].
    + destruct o as [|[k1 v1] o]; cbn [obj_insert_index]; [now rewrite <- Ho|].
      cbn [map fst] in Ho. rewrite <- Ho in Hrest.
      apply Forall_cons in Hrest as [Hk1 _]. rewrite Hk1.
      cbn [map fst]. now rewrite Ho.
    + intros x Hx. apply list_elem_of_singleton in Hx. auto.
    + constructor; [congruence | constructor].
    + repeat constructor.
  - destruct o as [|[k1 v1] o]; [discriminate|].
    cbn [map fst app] in Ho. injection Ho as -> Ho.
    apply not_elem_of_cons in Hnotin as [Hne Hnotin].
    apply Forall_cons in Hidx as [Hk0 Hidx].
    apply StronglySorted_inv in Hsorted as [Hsorted Hall].
    destruct (array_index k0) as [j|] eqn:Hj; [|contradiction].
    cbn [obj_insert_index]. rewrite Hj.
    destruct (N.ltb_spec j i) as [Hlt|Hge].
    + destruct (IH o Ho Hnotin Hidx Hsorted Hrest)
        as (idx' & Hkeys & Hfrom & Hidx' & Hsorted').
      exists (k0 :: idx'). cbn [map fst app]. rewrite Hkeys.
      split; [reflexivity|]. split; [|split].
      * intros x Hx. apply elem_of_cons in Hx as [->|Hx]; [right; left|].
        destruct (Hfrom x Hx); [auto | right; now right].
      * constructor; [congruence | exact Hidx'].
      * constructor; [exact Hsorted'|].
        apply Forall_forall. intros x Hx.
        destruct (Hfrom x Hx) as [->|Hx'].
        -- unfold index_lt. now rewrite Hj, Hk.
        -- rewrite Forall_forall in Hall. now apply Hall.
    + assert (Hlt : (i < j)%N).
      { destruct (N.eq_dec i j) as [->|]; [|lia].
        exfalso. apply Hne. eapply array_index_inj; eassumption. }
      exists (k :: k0 :: idx). cbn [map fst app]. rewrite Ho.
      split; [reflexivity|]. split; [|split].
      * intros x Hx. apply elem_of_cons in Hx as [->|Hx]; auto.
      * constructor; [congruence|]. constructor; [congruence | exact Hidx].
      * constructor; [constructor; assumption|].
        constructor; [unfold index_lt; now rewrite Hk, Hj|].
        eapply Forall_impl; [exact Hall|]. intros x Hx. cbn in Hx.
        unfold index_lt in *. rewrite Hj in Hx. rewrite Hk.
        destruct (array_index x); [lia | contradiction].
Qed.

Lemma elem_of_first_occ (l : list string) (x : string) :
  x ∈ first_occ l ↔ x ∈ l.
Proof.
  induction l as [|y l IH]; cbn [first_occ]; [reflexivity|].
  rewrite !elem_of_cons, list_elem_of_filter, IH.
  destruct (decide (x = y)); tauto.
Qed.

Lemma first_occ_NoDup (l : list string) : NoDup (first_occ l).
Proof.
  induction l as [|y l IH]; cbn [first_occ]; constructor.
  - rewrite list_elem_of_filter. tauto.
  - now apply NoDup_filter.
Qed.

Lemma first_occ_snoc (l : list string) (x : string) :
  first_occ (l ++ [x]) =
  if decide (x ∈ l) then first_occ l else first_occ l ++ [x].
Proof.
  induction l as [|y l IH]; [reflexivity|].
  cbn [app first_occ]. rewrite IH.
  destruct (decide (x = y)) as [->|Hne].
  - destruct (decide (y ∈ y :: l)) as [_|Hn]; [|exfalso; apply Hn; left].
    destruct (decide (y ∈ l)); [reflexivity|].
    rewrite filter_app, (filter_singleton _ y []).
    destruct (decide (y ≠ y)); [contradiction | now rewrite app_nil_r].
  - destruct (decide (x ∈ l)) as [Hin|Hnin].
    + destruct (decide (x ∈ y :: l)) as [_|Hn]; [reflexivity|].
      exfalso. apply Hn. now right.
    + destruct (decide (x ∈ y :: l)) as [Hin|_].
      * apply elem_of_cons in Hin as [?|?]; contradiction.
      * rewrite filter_app, (filter_singleton _ x []).
        destruct (decide (x ≠ y)); [reflexivity | contradiction].
Qed.

Lemma set_all_snoc (l : list (string * value)) (kv : string * value)
  (o : list (string * value)) :
  set_all (l ++ [kv]) o = obj_set (fst kv) (snd kv) (set_all l o).
Proof. unfold set_all. now rewrite foldl_snoc. Qed.

(** The keys of the object built from the empty one: the array indices
    in ascending order, then the other keys by first assignment. *)
Lemma set_all_ordered (l : list (string * value)) :
  js_ordered (first_occ (filter (λ k, array_index k = None) (map fst l)))
    (map fst (set_all l [])).
Proof.
  induction l as [|[k v] l IH] using rev_ind.
  - exists []. repeat split; constructor.
  - destruct IH as (idx & Hkeys & Hidx & Hsorted).
    rewrite set_all_snoc, map_app, filter_app. cbn [fst snd map].
    rewrite (filter_singleton _ k []).
    set (rest := first_occ (filter (λ k, array_index k = None) (map fst l))) in *.
    assert (Hrest : Forall (λ k, array_index k = None) rest).
    { apply Forall_forall. intros x Hx. subst rest.
      apply elem_of_first_occ, list_elem_of_filter in Hx. tauto. }
    unfold obj_set. destruct (obj_lookup k (set_all l [])) as [w|] eqn:Hlook.
    + exists idx. rewrite keys_replace. split; [|auto].
      rewrite Hkeys. f_equal.
      destruct (decide (array_index k = None)) as [Hni|_]; [|now rewrite app_nil_r].
      rewrite first_occ_snoc. fold rest.
      destruct (decide (k ∈ filter (λ k, array_index k = None) (map fst l)))
        as [_|Hn]; [reflexivity|].
      exfalso. apply Hn. apply list_elem_of_filter. split; [exact Hni|].
      rewrite set_all_from_empty in Hlook.
      destruct (decide (k ∈ map fst l)) as [Hin|Hnin]; [exact Hin|].
      apply to_map_None in Hnin. congruence.
    + assert (Hnew : k ∉ map fst l).
      { apply to_map_None. now rewrite <- set_all_from_empty. }
      destruct (array_index k) as [i|] eqn:Hk.
      * destruct (decide (Some i = None)); [discriminate|].
        rewrite app_nil_r. fold rest.
        destruct (keys_insert_index i k v idx rest (set_all l []))
          as (idx' & Hkeys' & _ & Hidx' & Hsorted'); auto.
        { apply obj_lookup_None_keys in Hlook. rewrite Hkeys in Hlook.
          apply not_elem_of_app in Hlook. tauto. }
        exists idx'. auto.
      * destruct (decide (@None N = None)); [|contradiction].
        exists idx. rewrite map_app, Hkeys, first_occ_snoc. fold rest.
        destruct (decide (k ∈ filter (λ k, array_index k = None) (map fst l)))
          as [Hin|_].
        { apply list_elem_of_filter in Hin. tauto. }
        cbn [map fst]. rewrite app_assoc. auto.
Qed.

Lemma index_sorted_NoDup (idx : list string) :
  StronglySorted index_lt idx → NoDup idx.
Proof.
  induction 1 as [|x l Hs IH Hall]; constructor; [|exact IH].
  intros Hin. rewrite Forall_forall in Hall. apply Hall in Hin.
  unfold index_lt in Hin. destruct (array_index x); [lia | exact Hin].
Qed.

Lemma js_ordered_NoDup (rest keys : list string) :
  js_ordered rest keys →
  NoDup rest → Forall (λ k, array_index k = None) rest → NoDup keys.
Proof.
  intros (idx & -> & Hidx & Hsorted) Hnd Hrest.
  apply NoDup_app. split; [now apply index_sorted_NoDup|]. split; [|exact Hnd].
  intros x Hx Hx'. rewrite Forall_forall in Hidx, Hrest.
  now apply (Hidx x Hx), Hrest.
Qed.

Lemma stringify_object_defined (o : list (string * value)) :
  JSON.stringify (VObj o) = Some (stringify_object o).
Proof. reflexivity. Qed.

(** The rows under [__proto__] leave the other keys alone. *)
Lemma to_map_own_entries (proto : bool) (rows : list NodeRow) (k : string) :
  k ≠ "__proto__" →
  to_map (own_entries proto rows) !! k = to_map (omap entry rows) !! k.
Proof.
  intros Hk. revert proto. induction rows as [|row rows IH]; intros proto;
    [reflexivity|].
  change (omap entry (row :: rows))
    with (match entry row with
          | Some e => e :: omap entry rows
          | None => omap entry rows
          end).
  cbn [own_entries]. unfold entry at 1.
  destruct (editable_key row) as [k'|]; [|apply IH].
  destruct (String.eqb k' "__proto__" && proto) eqn:Hset.
  - apply andb_prop in Hset as [Hp _]. apply String.eqb_eq in Hp as ->.
    cbn [to_map]. rewrite lookup_union, IH, lookup_singleton_ne by congruence.
    now destruct (to_map (omap entry rows) !! k).
  - cbn [to_map]. now rewrite !lookup_union, IH.
Qed.

Lemma keys_own_entries (proto : bool) (rows : list NodeRow) :
  filter (λ k, k ≠ "__proto__") (map fst (own_entries proto rows)) =
  filter (λ k, k ≠ "__proto__") (omap editable_key rows).
Proof.
  revert proto. induction rows as [|row rows IH]; intros proto; [reflexivity|].
  change (omap editable_key (row :: rows))
    with (match editable_key row with
          | Some k => k :: omap editable_key rows
          | None => omap editable_key rows
          end).
  cbn [own_entries].
  destruct (editable_key row) as [k|]; [|apply IH].
  destruct (String.eqb k "__proto__" && proto) eqn:Hset.
  - apply andb_prop in Hset as [Hp _]. apply String.eqb_eq in Hp as ->.
    rewrite filter_cons.
    destruct (decide ("__proto__" ≠ "__proto__")); [congruence | apply IH].
  - cbn [map fst]. rewrite !filter_cons, IH. reflexivity.
Qed.

Lemma filter_first_occ (P : string → Prop) `{∀ x, Decision (P x)}
  (l : list string) :
  filter P (first_occ l) = first_occ (filter P l).
Proof.
  induction l as [|x l IH]; [reflexivity|].
  cbn [first_occ]. rewrite !filter_cons.
  destruct (decide (P x)) as [Hx|Hx].
  - cbn [first_occ]. f_equal. rewrite <- IH.
    rewrite !list_filter_filter. apply list_filter_iff. tauto.
  - rewrite <- IH, list_filter_filter. apply list_filter_iff.
    intros y. split; [tauto|]. intros Hy. split; [exact Hy | congruence].
Qed.

(** Taking a key that is no array index out of the keys of an object
    keeps their order. *)
Lemma js_ordered_filter (k0 : string) (rest keys : list string) :
  array_index k0 = None →
  js_ordered rest keys →
  js_ordered (filter (λ k, k ≠ k0) rest) (filter (λ k, k ≠ k0) keys).
Proof.
  intros Hk0 (idx & -> & Hidx & Hsorted). exists idx.
  split; [|auto]. rewrite filter_app. f_equal.
  clear Hsorted. induction Hidx as [|x idx Hx Hidx IH]; [reflexivity|].
  rewrite filter_cons. destruct (decide (x ≠ k0)) as [_|Heq]; [now rewrite IH|].
  exfalso. apply Hx. destruct (decide (x = k0)) as [->|]; [exact Hk0 | contradiction].
Qed.

(** ** The row normaliser *)

(** C8, as stated, fails on a single row whose key is the empty string:
    the key is present, yet the code renders the bare value and not a
    map with that key. *)
Lemma normalizeNodeData_empty_key_counterexample :
  ¬ (∀ rows : list NodeRow, normalizeNodeData rows = normalize_as_stated rows).
Proof.
  intros H. specialize (H [Scenario.empty_key_row]).
  vm_compute in H. discriminate.
Qed.

(** The order of the rows is not kept either when a key is an array
    index: the row with key 1 comes second and is printed first. *)
Lemma normalizeNodeData_index_key_first :
  normalizeNodeData Scenario.index_rows =
    stringify_object [("1", VNum (of_N 2)); ("b", VNum (of_N 1))] ∧
  normalize_as_stated Scenario.index_rows =
    stringify_object [("b", VNum (of_N 1)); ("1", VNum (of_N 2))] ∧
  normalizeNodeData Scenario.index_rows ≠ normalize_as_stated Scenario.index_rows.
Proof. vm_compute. repeat split. discriminate. Qed.

(** A row under [__proto__] writes no property: the assignment of
    line 17 reaches the setter that the fresh object inherits, which
    ignores a primitive other than null; null takes the prototype off
    the object, and a later row under that key then writes a
    property. *)
Lemma normalizeNodeData_proto_examples :
  let a := {| row_key := Some "a"; row_value := SNum (of_N 2); row_type := TNumber |} in
  let proto v t := {| row_key := Some "__proto__"; row_value := v; row_type := t |} in
  normalizeNodeData [a; proto (SNum (of_N 1)) TNumber] = stringify_object [("a", VNum (of_N 2))] ∧
  normalizeNodeData [proto (SStr "x") TString; a] = stringify_object [("a", VNum (of_N 2))] ∧
  normalizeNodeData [proto (SStr "x") TString] = "{}" ∧
  normalizeNodeData [a; proto SNull TNull] = stringify_object [("a", VNum (of_N 2))] ∧
  normalizeNodeData [proto SNull TNull; proto (SNum (of_N 1)) TNumber; a] =
    stringify_object [("__proto__", VNum (of_N 1)); ("a", VNum (of_N 2))].
Proof. vm_compute. repeat split. Qed.

(** C8, amended. No row gives the text of the empty object. A single
    row whose key is absent or empty gives the text of its value. Every
    other sequence gives the serialisation, with two spaces of
    indentation, of the object built by the assignments of the rows that
    are no array or object rows and have a present, non-empty key: each
    such key other than [__proto__] holds the value of its last row, no
    key occurs twice, and the keys other than [__proto__] are listed
    with the array indices first, in ascending order, followed by the
    other keys in the order of their first rows. What a row under
    [__proto__] does is left out of the statement. *)
Theorem normalizeNodeData_spec :
  normalizeNodeData [] = "{}" ∧
  (∀ row : NodeRow,
     row_key row = None ∨ row_key row = Some EmptyString →
     normalizeNodeData [row] = ToString (row_value row)) ∧
  (∀ rows : list NodeRow,
     (∀ row, rows = [row] → ∃ k, row_key row = Some k ∧ k ≠ EmptyString) →
     JSON.stringify (VObj (row_object rows)) = Some (normalizeNodeData rows)) ∧
  (∀ (row : NodeRow) (k : string),
     editable_key row = Some k ↔
     row_type row ≠ TArray ∧ row_type row ≠ TObject ∧
     row_key row = Some k ∧ k ≠ EmptyString) ∧
  (∀ rows : list NodeRow,
     (∀ k, k ≠ "__proto__" →
           obj_lookup k (row_object rows) = of_scalar <$> last_value rows k) ∧
     NoDup (map fst (row_object rows)) ∧
     js_ordered
       (first_occ
          (filter (λ k, array_index k = None)
             (filter (λ k, k ≠ "__proto__") (omap editable_key rows))))
       (filter (λ k, k ≠ "__proto__") (map fst (row_object rows)))) ∧
  normalizeNodeData
    [ {| row_key := Some "a"; row_value := SNum (of_N 1); row_type := TNumber |};
      {| row_key := Some "b"; row_value := SNull; row_type := TArray |} ] =
  "{" +:+ JSON.newline +:+ "  " +:+ quoted "a" +:+ ": 1" +:+ JSON.newline +:+ "}".
Proof.
  split; [reflexivity|]. split; [|split; [|split; [|split]]].
  - intros row [Hk | Hk]; unfold normalizeNodeData; now rewrite Hk.
  - intros [|row [|row' rows]] Hsingle; try reflexivity.
    destruct (Hsingle row eq_refl) as (k & Hk & Hne).
    unfold normalizeNodeData. rewrite Hk.
    destruct k; [contradiction | reflexivity].
  - apply editable_key_Some.
  - intros rows. rewrite row_object_set_all.
    assert (Hord := set_all_ordered (own_entries true rows)).
    split; [|split].
    + intros k Hk.
      now rewrite set_all_from_empty, to_map_own_entries, to_map_entries.
    + eapply js_ordered_NoDup; [exact Hord | apply first_occ_NoDup|].
      apply Forall_forall. intros x Hx.
      apply elem_of_first_occ, list_elem_of_filter in Hx. tauto.
    + apply (js_ordered_filter "__proto__") in Hord; [|reflexivity].
      rewrite filter_first_occ in Hord.
      assert (Heq : filter (λ k, k ≠ "__proto__")
                      (filter (λ k, array_index k = None)
                         (map fst (own_entries true rows))) =
                    filter (λ k, array_index k = None)
                      (filter (λ k, k ≠ "__proto__") (omap editable_key rows))).
      { rewrite <- (keys_own_entries true rows), !list_filter_filter.
        apply list_filter_iff. tauto. }
      now rewrite Heq in Hord.
  - vm_compute. reflexivity.
Qed.

(** ** Further properties of the handlers *)

(** The save handler completes normally in every world, whatever the
    store action does: an exception of the synchronisation is caught. *)
Lemma handleSaveClick_completes
  (updateNodeValues : option (string → list Update → GraphState → GraphState))
  (w : World) :
  ∃ w', handleSaveClick updateNodeValues w = (Val tt, w').
Proof.
  destruct (selectedNode (graph w)) as [nodeData|] eqn:Hsel.
  - destruct (computeUpdates (node_text nodeData) (editFields w)) as [|u us] eqn:Hupd.
    + eexists. unfold handleSaveClick, bind, gets. rewrite Hsel, Hupd. reflexivity.
    + destruct updateNodeValues as [update|].
      * rewrite (handleSaveClick_nonempty update w nodeData Hsel)
          by (rewrite Hupd; discriminate).
        cbv zeta. unfold bind at 1. unfold try_catch.
        destruct (syncBody nodeData _ _) as [[[]|e] w2].
        -- destruct (after_sync_run nodeData w2) as (w' & Hrun & _). eauto.
        -- unfold console_error, modify.
           destruct (after_sync_run nodeData
                       (log (EvConsoleError "Failed to sync to text editor:" e) w2))
             as (w' & Hrun & _).
           eauto.
      * eexists. unfold handleSaveClick, bind, gets. rewrite Hsel, Hupd. reflexivity.
  - eexists. unfold handleSaveClick, bind, gets. rewrite Hsel. reflexivity.
Qed.

(** The end-to-end example: the age of the customer edited to 31 gives
    one update for row 1, and the save writes the patched document,
    pretty-printed, and re-reads the node. *)
Lemma end_to_end_save :
  computeUpdates Scenario.customer_rows Scenario.age_31 =
    [ {| upd_index := 1; upd_value := SNum (of_N 31) |} ] ∧
  contents (snd (handleSaveClick (Some Scenario.updateValues) Scenario.edited)) =
    "{" +:+ JSON.newline +:+
    "  " +:+ quoted "customer" +:+ ": {" +:+ JSON.newline +:+
    "    " +:+ quoted "name" +:+ ": " +:+ quoted "Bob" +:+ "," +:+ JSON.newline +:+
    "    " +:+ quoted "age" +:+ ": 31" +:+ JSON.newline +:+
    "  }" +:+ JSON.newline +:+ "}" ∧
  JSON.parse Scenario.customer_text = Val Scenario.customer_tree.
Proof. vm_compute. repeat split. Qed.

(** The text of an index below [2^53] as a number is its decimal
    digits, here on a few indices. *)
Lemma index_text_examples :
  map (λ i, NumberToString (of_N i)) [0; 7; 10; 4294967294; 9007199254740991]%N =
  map digits_of [0; 7; 10; 4294967294; 9007199254740991]%N.
Proof. vm_compute. reflexivity. Qed.

(** From [2^53] on not every integer is a number, and from [10^21] on
    the text of a number has an exponent. *)
Lemma index_text_limits :
  NumberToString (of_N (2 ^ 53 + 1)) = "9007199254740992" ∧
  NumberToString (of_N 18446744073709551615) = "18446744073709552000" ∧
  NumberToString (of_N (10 ^ 21)) = "1e+21".
Proof. vm_compute. repeat split. Qed.

(** ** The written text is defined *)

Lemma parse_literal_defined (l r : list ascii) (v : value) :
  JSON.parse_literal l = Some (v, r) → v ≠ VUndefined.
Proof.
  unfold JSON.parse_literal. intros H.
  repeat match type of H with
         | match ?x with _ => _ end = _ => destruct x
         end; congruence.
Qed.

Lemma parse_value_defined (fuel : nat) (l r : list ascii) (v : value) :
  JSON.parse_value fuel l = Some (v, r) → v ≠ VUndefined.
Proof.
  destruct fuel as [|fuel]; [discriminate|].
  cbn [JSON.parse_value]. intros H.
  destruct (JSON.skip_ws l) as [|c l']; [discriminate|].
  destruct (Ascii.eqb c "{").
  { destruct (JSON.skip_ws l') as [|c' r']; [discriminate|].
    destruct (Ascii.eqb c' "}"); [congruence|].
    destruct (JSON.parse_members fuel l' []) as [[o r'']|]; congruence. }
  destruct (Ascii.eqb c "[").
  { destruct (JSON.skip_ws l') as [|c' r']; [discriminate|].
    destruct (Ascii.eqb c' "]"); [congruence|].
    destruct (JSON.parse_elements fuel l' []) as [[elems r'']|]; congruence. }
  destruct (Ascii.eqb c JSON.dquote).
  { destruct (JSON.span_string l') as [[s r']|]; congruence. }
  destruct (JSON.parse_literal (c :: l')) as [[v' r']|] eqn:Hlit.
  - injection H as -> ->. eapply parse_literal_defined. exact Hlit.
  - unfold JSON.parse_number in H.
    destruct (JSON.span_number (c :: l')) as [[tok r']|]; congruence.
Qed.

(** [JSON.parse] never answers undefined. *)
Lemma parse_defined (text : string) (v : value) :
  JSON.parse text = Val v → v ≠ VUndefined.
Proof.
  unfold JSON.parse.
  destruct (JSON.parse_value _ _) as [[v' r]|] eqn:Hv; [|discriminate].
  destruct (JSON.skip_ws r); [|discriminate].
  intros [= <-]. eapply parse_value_defined. exact Hv.
Qed.

Lemma stringify_defined (v : value) :
  v ≠ VUndefined → ∃ s, JSON.stringify v = Some s.
Proof.
  destruct v as [| | [|] | n | s | l | o]; intros Hv;
    try contradiction; try (eexists; reflexivity).
  destruct n; eexists; reflexivity.
Qed.

Lemma assign_container (target : value) (k : string) (v : scalar) (t : value) :
  assign target k v = Val t → is_container t = true.
Proof.
  destruct target; cbn [assign]; try discriminate.
  - destruct (array_index k); [now intros [= <-]|].
    destruct (String.eqb k "length"); [|now intros [= <-]].
    destruct (array_length_of (ToNumber v)); [now intros [= <-] | discriminate].
  - now intros [= <-].
Qed.

Lemma assignUpdates_defined (target : value) (rows : list NodeRow)
  (updates : list Update) (t : value) :
  assignUpdates target rows updates = Val t → target ≠ VUndefined → t ≠ VUndefined.
Proof.
  revert target. induction updates as [|u updates IH]; intros target.
  - now intros [= <-].
  - cbn [assignUpdates].
    destruct (rows !! upd_index u) as [row|]; [|apply IH].
    destruct (truthy_key (row_key row)) as [k|]; [|apply IH].
    destruct (assign target k (upd_value u)) as [t'|] eqn:Ht'; [|discriminate].
    intros Hrest _. apply (IH t' Hrest).
    apply assign_container in Ht'. now destruct t'.
Qed.

(** The patched tree of a parsed document has a serialisation, so the
    save handler never hands an undefined text to the document store. *)
Lemma patched_text_defined (text : string) (parsed parsed' : value)
  (path : list segment) (rows : list NodeRow) (updates : list Update) :
  JSON.parse text = Val parsed →
  applyUpdates parsed path rows updates = Val parsed' →
  ∃ updatedJson, JSON.stringify parsed' = Some updatedJson.
Proof.
  intros Hparse Hpatch. apply parse_defined in Hparse.
  apply stringify_defined. unfold applyUpdates in Hpatch.
  destruct (navigate parsed path) as [target|] eqn:Hnav; [|discriminate].
  destruct (assignUpdates target rows updates) as [target'|] eqn:Hassign;
    [|discriminate].
  injection Hpatch as <-.
  destruct path as [|seg path].
  - cbn [navigate] in Hnav. injection Hnav as <-. cbn [plug].
    eapply assignUpdates_defined; eassumption.
  - cbn [plug]. destruct parsed; try congruence; try discriminate.
    + destruct (array_index (seg_key seg)); [|discriminate].
      destruct (elems !! N.to_nat n); discriminate.
    + destruct (obj_lookup (seg_key seg) props); discriminate.
Qed.

(** ** The number model on known values *)

(** [String(Number(text))] on texts whose answers are known: integers,
    fractions, exponents at the limits of the layout, the extremes of
    the binary64 range, ties, white space, other radices and texts that
    are no numbers. *)
Lemma number_text_examples :
  map (λ text, NumberToString (StringToNumber text))
    [ "42"; "042"; "abc"; "0.1"; "1e3"; "1e21"; "1e-7"; "0.000001";
      "123456789012345680000"; "9007199254740993"; "5e-324"; "3e-324";
      "1.7976931348623157e308"; "1.8e308"; "-1.5"; "-0"; " 12 "; "12px";
      "5."; ".5"; "."; "0x1F"; "0b101"; "Infinity"; "-Infinity"; "NaN";
      "0.30000000000000004"; "1.00000000000000011102230246251565404236316680908203125";
      "72057594037927945"; "2.4e-324" ] =
    [ "42"; "42"; "NaN"; "0.1"; "1000"; "1e+21"; "1e-7"; "0.000001";
      "123456789012345680000"; "9007199254740992"; "5e-324"; "5e-324";
      "1.7976931348623157e+308"; "Infinity"; "-1.5"; "0"; "12"; "NaN";
      "5"; "0.5"; "NaN"; "31"; "5"; "Infinity"; "-Infinity"; "NaN";
      "0.30000000000000004"; "1";
      "72057594037927950"; "0" ] ∧
  NumberToString (StringToNumber EmptyString) = "0".
Proof. vm_compute. split; reflexivity. Qed.

(** * Properties beyond the listed ones *)

(** ** Coercion keeps the text *)

Lemma ToString_coerceValue (val : string) : ToString (coerceValue val) = val.
Proof.
  unfold coerceValue.
  destruct (String.eqb_spec val "null") as [->|_]; [reflexivity|].
  destruct (String.eqb_spec val "true") as [->|_]; [reflexivity|].
  destruct (String.eqb_spec val "false") as [->|_]; [reflexivity|].
  cbv zeta. destruct (negb (isNaN (StringToNumber val))); cbn [andb]; [|reflexivity].
  destruct (String.eqb_spec (NumberToString (StringToNumber val)) val);
    [assumption | reflexivity].
Qed.

(** X1. Rendering the coerced value as text gives the edited text back,
    whatever the text: the coercion changes the type of a value, never
    its text; so coercing that text again gives the same value. *)
Theorem coerceValue_keeps_text (val : string) :
  ToString (coerceValue val) = val ∧
  coerceValue (ToString (coerceValue val)) = coerceValue val.
Proof.
  assert (H : ToString (coerceValue val) = val).
  { unfold coerceValue.
    destruct (String.eqb_spec val "null") as [->|_]; [reflexivity|].
    destruct (String.eqb_spec val "true") as [->|_]; [reflexivity|].
    destruct (String.eqb_spec val "false") as [->|_]; [reflexivity|].
    cbv zeta. destruct (negb (isNaN (StringToNumber val))); cbn [andb];
      [|reflexivity].
    destruct (String.eqb_spec (NumberToString (StringToNumber val)) val);
      [assumption | reflexivity]. }
  split; [exact H | now rewrite H].
Qed.

(** ** The seeded session, key by key *)

Lemma foldl_seed_last (rows : list NodeRow) (m : gmap string string) (k : string) :
  k ≠ "__proto__" →
  foldl seed_row m rows !! k =
  match last (filter (λ row, editable_key row = Some k) rows) with
  | Some row => Some (ToString (nullish_or (row_value row) (SStr EmptyString)))
  | None => m !! k
  end.
Proof.
  intros Hne. revert m. induction rows as [|r rows IH]; intros m; [reflexivity|].
  cbn [foldl]. rewrite IH, filter_cons.
  destruct (decide (editable_key r = Some k)) as [Hk|Hk].
  - rewrite last_cons.
    destruct (last (filter (λ row, editable_key row = Some k) rows));
      [reflexivity|].
    unfold seed_row. rewrite Hk.
    destruct (String.eqb_spec k "__proto__"); [contradiction|].
    apply lookup_insert_eq.
  - destruct (last (filter (λ row, editable_key row = Some k) rows));
      [reflexivity|].
    unfold seed_row. destruct (editable_key r) as [k'|]; [|reflexivity].
    destruct (String.eqb k' "__proto__"); [reflexivity|].
    apply lookup_insert_ne. congruence.
Qed.

(** X2. The session seeded on entering edit mode holds, for each key
    other than [__proto__], the text of the last row that passes the
    test under that key (null rendered as the empty text), and holds
    nothing for any other key; under [__proto__] it holds nothing,
    whatever the rows. *)
Theorem seedFields_lookup (rows : list NodeRow) (k : string) :
  seedFields rows !! k =
  if String.eqb k "__proto__" then None
  else (λ row, ToString (nullish_or (row_value row) (SStr EmptyString))) <$>
       last (filter (λ row, editable_key row = Some k) rows).
Proof.
  unfold seedFields. destruct (String.eqb_spec k "__proto__") as [->|Hne].
  - now rewrite foldl_seed_proto.
  - rewrite foldl_seed_last by exact Hne.
    destruct (last (filter (λ row, editable_key row = Some k) rows)); reflexivity.
Qed.

(** ** The edit form *)

Lemma editable_key_default (row : NodeRow) (k : string) :
  editable_key row = Some k → default EmptyString (row_key row) = k.
Proof.
  intros H. apply editable_key_Some in H as (_ & _ & -> & _). reflexivity.
Qed.

(** X3. Once the effect has seeded the session of a node whose editable
    rows carry distinct keys, none of them [__proto__], the edit form
    shows one input per editable row, in row order; the input of a row
    is labelled with its key, and both the text it shows and its
    placeholder are the text of the value of the row, null rendered as
    the empty text. *)
Theorem editForm_seeded (w : World) (nodeData : NodeData) :
  isEditing w = true →
  selectedNode (graph w) = Some nodeData →
  NoDup (omap editable_key (node_text nodeData)) →
  "__proto__" ∉ omap editable_key (node_text nodeData) →
  Forall2
    (λ row input,
       editable_key row = Some (input_label input) ∧
       input_value input =
         ToString (nullish_or (row_value row) (SStr EmptyString)) ∧
       input_placeholder input =
         ToString (nullish_or (row_value row) (SStr EmptyString)))
    (filter (λ row, editable_key row ≠ None) (node_text nodeData))
    (editForm (node_text nodeData) (editFields (run initEditFields w))).
Proof.
  intros Hedit Hsel Hnd Hproto.
  unfold run, initEditFields. rewrite Hedit, Hsel. cbn.
  set (rows := node_text nodeData) in *.
  unfold editForm. apply Forall2_fmap_r, Forall_Forall2_diag, Forall_forall.
  intros row Hrow. apply list_elem_of_filter in Hrow as [Hkey Hrow].
  destruct (editable_key row) as [k|] eqn:Hk; [|congruence].
  apply list_elem_of_lookup in Hrow as [i Hi].
  unfold compose. cbn [input_label input_value input_placeholder].
  rewrite (editable_key_default row k Hk).
  assert (Hkp : k ≠ "__proto__").
  { intros ->. apply Hproto, list_elem_of_omap. exists row. split; [|exact Hk].
    apply list_elem_of_lookup. eauto. }
  unfold seedFields.
  now rewrite (foldl_seed_lookup rows ∅ i row k Hnd Hi Hk Hkp).
Qed.

(** The customer node entered in edit mode. *)
Lemma editForm_seeded_witness :
  Forall2
    (λ row input,
       editable_key row = Some (input_label input) ∧
       input_value input =
         ToString (nullish_or (row_value row) (SStr EmptyString)) ∧
       input_placeholder input =
         ToString (nullish_or (row_value row) (SStr EmptyString)))
    (filter (λ row, editable_key row ≠ None) Scenario.customer_rows)
    (editForm Scenario.customer_rows
       (editFields (run initEditFields Scenario.untouched))).
Proof.
  apply (editForm_seeded Scenario.untouched
           (Scenario.customer_node (Some [SKey "customer"]))).
  - reflexivity.
  - reflexivity.
  - vm_compute. repeat constructor; intros H; inversion H; subst;
      match goal with H : _ ∈ _ |- _ => inversion H end.
  - vm_compute. intros H.
    repeat (apply elem_of_cons in H as [H|H]; [discriminate|]). inversion H.
Defined.

(** The form of the customer node as it is first shown. *)
Lemma editForm_customer :
  editForm Scenario.customer_rows
    (editFields (run initEditFields Scenario.untouched)) =
  [ {| input_label := "name"; input_placeholder := "Bob"; input_value := "Bob" |};
    {| input_label := "age"; input_placeholder := "30"; input_value := "30" |} ].
Proof. vm_compute. reflexivity. Qed.

(** ** One edited field *)

Lemma editable_key_index_inj (rows : list NodeRow) (i j : nat)
  (r r' : NodeRow) (k : string) :
  NoDup (omap editable_key rows) →
  rows !! i = Some r → rows !! j = Some r' →
  editable_key r = Some k → editable_key r' = Some k → i = j.
Proof.
  revert i j. induction rows as [|r0 rows IH]; intros i j Hnd Hi Hj Hk Hk';
    [discriminate|].
  change (omap editable_key (r0 :: rows))
    with (match editable_key r0 with
          | Some k => k :: omap editable_key rows
          | None => omap editable_key rows
          end) in Hnd.
  assert (Hin : ∀ n x, rows !! n = Some x → editable_key x = Some k →
                       k ∈ omap editable_key rows).
  { intros n x Hn Hx. apply list_elem_of_omap. exists x. split; [|exact Hx].
    apply list_elem_of_lookup. eauto. }
  destruct i as [|i], j as [|j]; [reflexivity| | |].
  - injection Hi as ->. rewrite Hk in Hnd.
    apply NoDup_cons in Hnd as [Hnotin _]. exfalso. eauto.
  - injection Hj as ->. rewrite Hk' in Hnd.
    apply NoDup_cons in Hnd as [Hnotin _]. exfalso. eauto.
  - f_equal. apply IH; try assumption.
    destruct (editable_key r0); [now apply NoDup_cons in Hnd | exact Hnd].
Qed.

Lemma singleton_by_members (l : list Update) (u0 : Update) :
  NoDup (map upd_index l) → (∀ u, u ∈ l ↔ u = u0) → l = [u0].
Proof.
  intros Hnd Hmem. destruct l as [|x l].
  - assert (H : u0 ∈ []) by now apply Hmem. inversion H.
  - assert (x = u0) as -> by (apply Hmem; left).
    destruct l as [|y l]; [reflexivity|].
    assert (y = u0) as -> by (apply Hmem; right; left).
    cbn [map] in Hnd. apply NoDup_cons in Hnd as [Hnotin _].
    exfalso. apply Hnotin. left.
Qed.

Lemma computeUpdates_NoDup (rows : list NodeRow) (session : gmap string string) :
  NoDup (map upd_index (computeUpdates rows session)).
Proof.
  apply sorted_lt_NoDup.
  apply (stamped_sorted rows (row_update session) 0).
  intros i row u Hu. apply row_update_Some in Hu as (k & p & _ & _ & _ & ->).
  reflexivity.
Qed.

(** X4. A node whose editable rows carry distinct keys, none of them
    [__proto__], and no null value is put in edit mode and one of its
    fields is changed to a text that differs from the text of its value:
    the diff is then exactly one update, at the index of that row, with
    the coerced text. *)
Theorem single_edit_diff (w : World) (nodeData : NodeData) (i : nat)
  (row : NodeRow) (k text : string) :
  isEditing w = true →
  selectedNode (graph w) = Some nodeData →
  NoDup (omap editable_key (node_text nodeData)) →
  "__proto__" ∉ omap editable_key (node_text nodeData) →
  (∀ r k', r ∈ node_text nodeData → editable_key r = Some k' →
           row_value r ≠ SNull) →
  node_text nodeData !! i = Some row →
  editable_key row = Some k →
  text ≠ ToString (row_value row) →
  let session :=
    editFields (run (handleFieldChange k text) (run initEditFields w)) in
  reads_prototype session (node_text nodeData) = false ∧
  computeUpdates (node_text nodeData) session =
  [ {| upd_index := i; upd_value := coerceValue text |} ].
Proof.
  intros Hedit Hsel Hnd Hproto Hvalues Hrow Hk Htext.
  unfold run, initEditFields, handleFieldChange. rewrite Hedit, Hsel. cbn.
  set (rows := node_text nodeData) in *.
  assert (Hkeys : ∀ j r kj, rows !! j = Some r → editable_key r = Some kj →
                            kj ≠ "__proto__").
  { intros j r kj Hj Hkj ->. apply Hproto, list_elem_of_omap.
    exists r. split; [|exact Hkj]. apply list_elem_of_lookup. eauto. }
  split.
  { unfold reads_prototype. apply not_true_is_false. intros Hex.
    apply existsb_exists in Hex as (r & Hr & Hex).
    apply list_elem_of_In, list_elem_of_lookup in Hr as [j Hj].
    destruct (editable_key r) as [kj|] eqn:Hkj; [|discriminate].
    destruct (decide (kj = k)) as [->|Hother].
    - now rewrite lookup_insert_eq in Hex.
    - rewrite lookup_insert_ne in Hex by congruence.
      unfold seedFields in Hex.
      now rewrite (foldl_seed_lookup rows ∅ j r kj Hnd Hj Hkj (Hkeys j r kj Hj Hkj))
        in Hex. }
  apply singleton_by_members; [apply computeUpdates_NoDup|].
  intros u. rewrite elem_of_computeUpdates. split.
  - intros (j & r & Hj & Hu).
    apply row_update_Some in Hu as (kj & pending & Hkj & Hs & Hne & ->).
    destruct (decide (kj = k)) as [->|Hother].
    + rewrite lookup_insert_eq in Hs. injection Hs as <-.
      now rewrite (editable_key_index_inj rows i j row r k Hnd Hrow Hj Hk Hkj).
    + rewrite lookup_insert_ne in Hs by congruence.
      unfold seedFields in Hs.
      rewrite (foldl_seed_lookup rows ∅ j r kj Hnd Hj Hkj (Hkeys j r kj Hj Hkj))
        in Hs.
      injection Hs as <-. exfalso.
      assert (Hv : row_value r ≠ SNull).
      { apply (Hvalues r kj); [|exact Hkj]. apply list_elem_of_lookup. eauto. }
      destruct (row_value r); try contradiction; now apply Hne.
  - intros ->. exists i, row. split; [exact Hrow|].
    apply row_update_Some. exists k, text.
    rewrite lookup_insert_eq. auto.
Qed.

(** The age of the customer changed to 31. *)
Lemma single_edit_diff_witness :
  reads_prototype
    (editFields (run (handleFieldChange "age" "31")
                   (run initEditFields Scenario.untouched)))
    Scenario.customer_rows = false ∧
  computeUpdates Scenario.customer_rows
    (editFields (run (handleFieldChange "age" "31")
                   (run initEditFields Scenario.untouched))) =
  [ {| upd_index := 1; upd_value := coerceValue "31" |} ].
Proof.
  apply (single_edit_diff Scenario.untouched
           (Scenario.customer_node (Some [SKey "customer"])) 1
           {| row_key := Some "age"; row_value := SNum (of_N 30);
              row_type := TNumber |} "age" "31").
  - reflexivity.
  - reflexivity.
  - vm_compute. repeat constructor; intros H; inversion H; subst;
      match goal with H : _ ∈ _ |- _ => inversion H end.
  - vm_compute. intros H.
    repeat (apply elem_of_cons in H as [H|H]; [discriminate|]). inversion H.
  - intros r k' Hr _. cbn in Hr.
    apply elem_of_cons in Hr as [->|Hr]; [discriminate|].
    apply elem_of_cons in Hr as [->|Hr]; [discriminate | inversion Hr].
  - reflexivity.
  - reflexivity.
  - vm_compute. discriminate.
Defined.

(** ** The diff after its updates are written *)

(** X5. Let no lookup of the diff fall through to [Object.prototype].
    Once the value of every update of the diff is written into the row
    at its index, keys and kinds kept, the lookups of the same session
    on the new rows stay on the session and yield no update any more:
    the diff does not ask twice for the same edit. *)
Theorem computeUpdates_settles (rows rows' : list NodeRow)
  (session : gmap string string) :
  reads_prototype session rows = false →
  written rows (computeUpdates rows session) rows' →
  reads_prototype session rows' = false ∧
  computeUpdates rows' session = [].
Proof.
  intros Hown Hwritten. split.
  { apply not_true_is_false. intros Hex.
    apply existsb_exists in Hex as (row' & Hin & Hex).
    apply list_elem_of_In, list_elem_of_lookup in Hin as [j Hj].
    destruct (Hwritten j row' Hj) as (row & Hrow & Hkey & Htype & _).
    apply not_true_iff_false in Hown. apply Hown.
    apply existsb_exists. exists row. split.
    - apply list_elem_of_In, list_elem_of_lookup. eauto.
    - unfold editable_key in *. now rewrite <- Hkey, <- Htype. }
  destruct (computeUpdates rows' session) as [|u' l] eqn:Hupd; [reflexivity|].
  assert (Hin : u' ∈ computeUpdates rows' session) by (rewrite Hupd; left).
  apply elem_of_computeUpdates in Hin as (j & row' & Hj & Hu).
  apply row_update_Some in Hu as (k & pending & Hk & Hs & Hne & _).
  destruct (Hwritten j row' Hj) as (row & Hrow & Hkey & Htype & Hvalue).
  assert (Hk0 : editable_key row = Some k).
  { unfold editable_key in *. now rewrite <- Hkey, <- Htype. }
  exfalso. destruct Hvalue as [(u & Hu & Hidx & Hval) | [Hnone Hval]].
  - apply elem_of_computeUpdates in Hu as (j' & r & Hr & Hu).
    apply row_update_Some in Hu as (k1 & p1 & Hk1 & Hs1 & _ & ->).
    cbn in Hidx, Hval. subst j'.
    assert (r = row) as -> by congruence.
    assert (k1 = k) as -> by congruence.
    assert (p1 = pending) as -> by congruence.
    apply Hne. now rewrite Hval, ToString_coerceValue.
  - apply (Hnone {| upd_index := j; upd_value := coerceValue pending |});
      [|reflexivity].
    apply elem_of_computeUpdates. exists j, row. split; [exact Hrow|].
    apply row_update_Some. exists k, pending. rewrite <- Hval. auto.
Qed.

(** The age of the customer written as 31. *)
Lemma computeUpdates_settles_witness :
  reads_prototype Scenario.age_31
    (foldl Scenario.apply_update Scenario.customer_rows
       (computeUpdates Scenario.customer_rows Scenario.age_31)) = false ∧
  computeUpdates
    (foldl Scenario.apply_update Scenario.customer_rows
       (computeUpdates Scenario.customer_rows Scenario.age_31))
    Scenario.age_31 = [].
Proof.
  apply (computeUpdates_settles Scenario.customer_rows); [reflexivity|].
  intros i row' Hi.
  destruct i as [|[|i]]; vm_compute in Hi; [| |discriminate];
    injection Hi as <-; eexists; (split; [reflexivity|]);
    (split; [reflexivity|]); (split; [reflexivity|]).
  - right. split; [|reflexivity].
    intros u Hu. vm_compute in Hu.
    apply elem_of_cons in Hu as [->|Hu]; [discriminate | inversion Hu].
  - left. eexists. split; [vm_compute; left|]. split; reflexivity.
Defined.

(** ** The diff against a stored node with the same keys *)

Lemma computeUpdates_assigned (rows rows' : list NodeRow)
  (session : gmap string string) (u : Update) :
  map row_key rows' = map row_key rows →
  u ∈ computeUpdates rows session →
  ∃ row row' k,
    rows !! upd_index u = Some row ∧ editable_key row = Some k ∧
    rows' !! upd_index u = Some row' ∧ truthy_key (row_key row') = Some k.
Proof.
  intros Hkeys Hu.
  apply elem_of_computeUpdates in Hu as (i & row & Hrow & Hu).
  apply row_update_Some in Hu as (k & p & Hk & _ & _ & ->). cbn [upd_index].
  assert (Hi : map row_key rows' !! i = Some (row_key row))
    by (rewrite Hkeys, list_lookup_fmap, Hrow; reflexivity).
  rewrite list_lookup_fmap in Hi.
  destruct (rows' !! i) as [row'|]; [|discriminate].
  injection Hi as Hi. exists row, row', k. repeat split; try assumption.
  rewrite Hi. unfold editable_key in Hk. now destruct (row_type row).
Qed.

(** X6. Let no lookup of the diff fall through to [Object.prototype],
    no editable row have the key [__proto__] and the walk along the
    path stay within the model (no lookup finds its name on a built-in
    prototype, every index is below [2^53]). When the stored node
    has the keys of the edited node, row by row, the guard of the
    assignment loop drops no update of the diff; a non-empty diff then
    makes the patch throw a TypeError on every path a prefix of which
    leads to a value that is no array and no object. *)
Theorem applyUpdates_same_keys (rows rows' : list NodeRow)
  (session : gmap string string) (parsed : value) (p1 p2 : list segment)
  (v : value) :
  map row_key rows' = map row_key rows →
  reads_prototype session rows = false →
  "__proto__" ∉ omap editable_key rows →
  computeUpdates rows session ≠ [] →
  unmodelled_walk parsed (p1 ++ p2) = false →
  navigate parsed p1 = Val v →
  is_container v = false →
  Forall (λ u, ∃ row' k, rows' !! upd_index u = Some row' ∧
                         truthy_key (row_key row') = Some k ∧
                         k ≠ "__proto__")
    (computeUpdates rows session) ∧
  applyUpdates parsed (p1 ++ p2) rows' (computeUpdates rows session) =
  Throw TypeError.
Proof.
  intros Hkeys _ Hproto Hne _ Hnav Hv.
  assert (Hall : Forall (λ u, ∃ row' k, rows' !! upd_index u = Some row' ∧
                                        truthy_key (row_key row') = Some k ∧
                                        k ≠ "__proto__")
                   (computeUpdates rows session)).
  { apply Forall_forall. intros u Hu.
    destruct (computeUpdates_assigned rows rows' session u Hkeys Hu)
      as (row & row' & k & Hrow & Hk & Hrow' & Hk').
    exists row', k. repeat split; try assumption.
    intros ->. apply Hproto, list_elem_of_omap. exists row. split; [|exact Hk].
    apply list_elem_of_lookup. eauto. }
  split; [exact Hall|].
  unfold applyUpdates. rewrite navigate_app, Hnav.
  destruct (navigate_non_container v p2 Hv) as [-> | (v' & -> & Hv')];
    [reflexivity|].
  rewrite assignUpdates_non_container; [reflexivity | exact Hv'|].
  destruct (computeUpdates rows session) as [|u l] eqn:Hupd; [contradiction|].
  apply Forall_cons in Hall as [(row' & k & Hrow' & Hk & Hkp) _].
  exists u, row', k. split; [left | auto].
Qed.

(** The customer rows against themselves, under the path customer,
    name, x: the lookup of name yields a string, on which x is
    neither a property nor a name of [String.prototype]. *)
Lemma applyUpdates_same_keys_witness :
  applyUpdates Scenario.customer_tree ([SKey "customer"; SKey "name"] ++ [SKey "x"])
    Scenario.customer_rows
    (computeUpdates Scenario.customer_rows Scenario.age_31) = Throw TypeError.
Proof.
  apply (applyUpdates_same_keys Scenario.customer_rows Scenario.customer_rows
           Scenario.age_31 Scenario.customer_tree
           [SKey "customer"; SKey "name"] [SKey "x"] (VStr "Bob")).
  - reflexivity.
  - reflexivity.
  - vm_compute. intros H.
    repeat (apply elem_of_cons in H as [H|H]; [discriminate|]). inversion H.
  - vm_compute. discriminate.
  - reflexivity.
  - reflexivity.
  - reflexivity.
Defined.

(** ** A save that reaches the document *)

Lemma after_sync_selected (nodeData : NodeData) (w : World) :
  selectedNode
    (graph
       (snd (bind (refreshSelectedNode nodeData)
               (λ _, bind (setRefreshKey (λ prev, prev + 1)%N)
                  (λ _, bind (setCodeRefreshKey (λ prev, prev + 1)%N)
                     (λ _, setTimeout (CbSetIsEditing false) 100))) w))) =
  match find_node (node_id nodeData) (nodes (graph w)) with
  | Some updatedNode => Some updatedNode
  | None => selectedNode (graph w)
  end.
Proof.
  unfold refreshSelectedNode, bind, gets.
  destruct (find_node (node_id nodeData) (nodes (graph w))); reflexivity.
Qed.

(** X7. A save with a non-empty diff whose text parses, whose node is in
    the store with a path, and whose patch succeeds: the handler calls
    the store action, parses the text once, writes the serialisation of
    the patched tree to the document store with [skipUpdate] false,
    adopts the stored node as the selected one, bumps both refresh keys
    and schedules leaving edit mode; nothing is reported to the
    console. *)
Theorem handleSaveClick_sync_success
  (update : string → list Update → GraphState → GraphState)
  (w : World) (nodeData nodeToUpdate : NodeData) (parsed parsed' : value)
  (path : list segment) :
  selectedNode (graph w) = Some nodeData →
  let updates := computeUpdates (node_text nodeData) (editFields w) in
  let stored := update (node_id nodeData) updates (graph w) in
  updates ≠ [] →
  JSON.parse (contents w) = Val parsed →
  find_node (node_id nodeData) (nodes stored) = Some nodeToUpdate →
  node_path nodeToUpdate = Some path →
  applyUpdates parsed path (node_text nodeToUpdate) updates = Val parsed' →
  ∃ w' updatedJson,
    JSON.stringify parsed' = Some updatedJson ∧
    handleSaveClick (Some update) w = (Val tt, w') ∧
    contents w' = updatedJson ∧
    nodes (graph w') = nodes stored ∧
    selectedNode (graph w') = Some nodeToUpdate ∧
    trace w' =
      trace w ++
      [EvUpdateNodeValues (node_id nodeData) updates;
       EvJSONParse (contents w);
       EvSetContents updatedJson false;
       EvSetSelectedNode nodeToUpdate;
       EvSetTimeout (CbSetIsEditing false) 100] ∧
    refreshKey w' = (refreshKey w + 1)%N ∧
    codeRefreshKey w' = (codeRefreshKey w + 1)%N ∧
    isEditing w' = isEditing w ∧
    isEditing (fire_timers w') = false.
Proof.
  intros Hsel updates stored Hne Hparse Hfind Hpath Hpatch.
  destruct (patched_text_defined _ _ _ _ _ _ Hparse Hpatch) as [updatedJson Hjson].
  rewrite (handleSaveClick_nonempty update w nodeData Hsel Hne).
  fold updates. cbv zeta.
  set (w1 := set_graph _ _).
  set (w2 := set_contents updatedJson
               (log (EvSetContents updatedJson false)
                  (log (EvJSONParse (contents w)) w1))).
  assert (Hsync : syncBody nodeData updates w1 = (Val tt, w2)).
  { rewrite syncBody_run. subst w1 w2. cbn [contents set_graph log graph].
    fold stored. now rewrite Hparse, Hfind, Hpath, Hpatch, Hjson. }
  unfold bind at 1. unfold try_catch. rewrite Hsync.
  assert (Hselected := after_sync_selected nodeData w2).
  destruct (after_sync_run nodeData w2)
    as (w' & Hrun & Hc & Hn & Ht & Htm & Hed & Hrk & Hck).
  rewrite Hrun in Hselected. cbn [snd] in Hselected.
  exists w', updatedJson. split; [exact Hjson|]. split; [exact Hrun|].
  rewrite Hc, Hn, Ht, Hselected, Hrk, Hck, Hed. unfold refresh_events.
  subst w1 w2.
  cbn [contents nodes graph trace log set_graph set_contents refreshKey
       codeRefreshKey isEditing].
  fold stored. rewrite Hfind. repeat split.
  - rewrite <- !app_assoc. reflexivity.
  - eapply fire_timers_last. exact Htm.
Qed.

(** The age of the customer saved as 31. *)
Lemma handleSaveClick_sync_success_witness :
  ∃ w' updatedJson,
    handleSaveClick (Some Scenario.updateValues) Scenario.edited = (Val tt, w') ∧
    contents w' = updatedJson ∧
    EvSetContents updatedJson false ∈ trace w'.
Proof.
  destruct (handleSaveClick_sync_success Scenario.updateValues Scenario.edited
              (Scenario.customer_node (Some [SKey "customer"]))
              {| node_id := "2";
                 node_text :=
                   foldl Scenario.apply_update Scenario.customer_rows
                     (computeUpdates Scenario.customer_rows Scenario.age_31);
                 node_path := Some [SKey "customer"] |}
              Scenario.customer_tree
              (plug Scenario.customer_tree [SKey "customer"]
                 (VObj [("name", VStr "Bob"); ("age", VNum (of_N 31))]))
              [SKey "customer"])
    as (w' & updatedJson & _ & Hrun & Hc & _ & _ & Ht & _).
  - reflexivity.
  - vm_compute. discriminate.
  - vm_compute. reflexivity.
  - vm_compute. reflexivity.
  - reflexivity.
  - vm_compute. reflexivity.
  - exists w', updatedJson. split; [exact Hrun|]. split; [exact Hc|].
    rewrite Ht. apply elem_of_app. right. right. right. left.
Defined.

(** ** What the patch changes, and what it leaves *)

(** X8. After a patch along a path that led, within the model, to an
    object, the same path leads to an object that holds, under every key some update was
    assigned to, the value of the last such update, and under every
    other key what the old object held. The key [__proto__] is left out
    unless the object had it as a property of its own: an assignment
    under it then reaches the inherited setter. *)
Theorem applyUpdates_lookup (parsed : value) (path : list segment)
  (rows : list NodeRow) (updates : list Update) (o : list (string * value)) :
  unmodelled_walk parsed path = false →
  navigate parsed path = Val (VObj o) →
  ∃ once o',
    applyUpdates parsed path rows updates = Val once ∧
    navigate once path = Val (VObj o') ∧
    ∀ k, runs_setter (VObj o) k = false →
         obj_lookup k o' =
         match to_map (resolve rows updates) !! k with
         | Some v => Some v
         | None => obj_lookup k o
         end.
Proof.
  intros _ Hnav.
  exists (plug parsed path (VObj (set_all (resolve rows updates) o))),
    (set_all (resolve rows updates) o).
  split; [|split].
  - unfold applyUpdates. now rewrite Hnav, assignUpdates_object.
  - eapply navigate_plug. exact Hnav.
  - intros k _. destruct (to_map (resolve rows updates) !! k) as [v|] eqn:Hk.
    + now apply set_all_lookup.
    + now apply set_all_untouched.
Qed.

(** The age of the customer patched to 31: the name is kept. *)
Lemma applyUpdates_lookup_witness :
  ∃ once o',
    applyUpdates Scenario.customer_tree [SKey "customer"] Scenario.customer_rows
      (computeUpdates Scenario.customer_rows Scenario.age_31) = Val once ∧
    navigate once [SKey "customer"] = Val (VObj o') ∧
    obj_lookup "age" o' = Some (VNum (of_N 31)) ∧
    obj_lookup "name" o' = Some (VStr "Bob").
Proof.
  destruct (applyUpdates_lookup Scenario.customer_tree [SKey "customer"]
              Scenario.customer_rows
              (computeUpdates Scenario.customer_rows Scenario.age_31)
              [("name", VStr "Bob"); ("age", VNum (of_N 30))] eq_refl eq_refl)
    as (once & o' & Hrun & Hnav & Hlook).
  exists once, o'. split; [exact Hrun|]. split; [exact Hnav|].
  split; rewrite Hlook by reflexivity; vm_compute; reflexivity.
Defined.

Lemma seg_key_index_ne (k k' : string) (i i' : N) :
  k ≠ k' → array_index k = Some i → array_index k' = Some i' → i ≠ i'.
Proof.
  intros Hne Hk Hk' ->. apply Hne. eapply array_index_inj; eassumption.
Qed.

(** A lookup under another key than the one the rebuilt tree was
    entered by reads what the old tree held. *)
Lemma get_plug_other (t : value) (s s' : segment) (p : list segment) (new : value) :
  seg_key s ≠ seg_key s' →
  get (plug t (s' :: p) new) (seg_key s) = get t (seg_key s).
Proof.
  intros Hne. cbn [plug]. destruct t as [| | b | n | str | l | o]; try reflexivity.
  - destruct (array_index (seg_key s')) as [i'|] eqn:Hi'; [|reflexivity].
    destruct (l !! N.to_nat i') as [child|] eqn:Hchild; [|reflexivity].
    cbn [get]. destruct (array_index (seg_key s)) as [i|] eqn:Hi.
    + rewrite list_lookup_insert_ne; [reflexivity|].
      intros Heq. apply N2Nat.inj in Heq.
      now apply (seg_key_index_ne _ _ _ _ Hne Hi Hi').
    + now rewrite length_insert.
  - destruct (obj_lookup (seg_key s') o) as [child|]; [|reflexivity].
    cbn [get]. rewrite obj_lookup_replace_ne by congruence. reflexivity.
Qed.

Lemma navigate_plug_other (t : value) (common : list segment) (s s' : segment)
  (p q : list segment) (new : value) :
  seg_key s ≠ seg_key s' →
  navigate (plug t (common ++ s' :: p) new) (common ++ s :: q) =
  navigate t (common ++ s :: q).
Proof.
  intros Hne. revert t. induction common as [|c common IH]; intros t.
  - cbn [app navigate]. now rewrite get_plug_other.
  - cbn [app plug navigate].
    destruct t as [| | b | n | str | l | o]; try reflexivity.
    + destruct (array_index (seg_key c)) as [i|] eqn:Hi; [|reflexivity].
      destruct (l !! N.to_nat i) as [child|] eqn:Hchild; [|reflexivity].
      cbn [get]. rewrite Hi.
      rewrite list_lookup_insert_eq by (eapply lookup_lt_Some; exact Hchild).
      rewrite Hchild. cbn [default]. apply IH.
    + destruct (obj_lookup (seg_key c) o) as [child|] eqn:Hchild; [|reflexivity].
      cbn [get]. rewrite (obj_lookup_replace_eq _ _ child) by exact Hchild.
      rewrite Hchild. cbn [default]. apply IH.
Qed.

(** X9. A successful patch along a path leaves every part of the
    document that lies off that path as it was: a path that leaves the
    patched one at some segment, under another key, reads in the patched
    tree what it read in the parsed one. *)
Theorem applyUpdates_frame (parsed once : value) (rows : list NodeRow)
  (updates : list Update) (common : list segment) (s s' : segment)
  (p q : list segment) :
  applyUpdates parsed (common ++ s' :: p) rows updates = Val once →
  seg_key s ≠ seg_key s' →
  navigate once (common ++ s :: q) = navigate parsed (common ++ s :: q).
Proof.
  unfold applyUpdates. intros Hpatch Hne.
  destruct (navigate parsed (common ++ s' :: p)) as [target|]; [|discriminate].
  destruct (assignUpdates target rows updates) as [target'|]; [|discriminate].
  injection Hpatch as <-. now apply navigate_plug_other.
Qed.

(** The customer of the shop patched: the order is as it was. *)
Lemma applyUpdates_frame_witness :
  ∃ once,
    applyUpdates Scenario.shop_tree [SKey "customer"] Scenario.customer_rows
      (computeUpdates Scenario.customer_rows Scenario.age_31) = Val once ∧
    navigate once [SKey "order"; SKey "id"] = Val (VNum (of_N 7)).
Proof.
  eexists. split; [reflexivity|].
  rewrite (applyUpdates_frame Scenario.shop_tree _ Scenario.customer_rows
             (computeUpdates Scenario.customer_rows Scenario.age_31)
             [] (SKey "order") (SKey "customer") [] [SKey "id"]).
  - reflexivity.
  - reflexivity.
  - discriminate.
Defined.

(** ** The calls of a save *)

(** The guarded synchronisation completes normally; after the parse it
    makes at most one call, a write or a report. *)
Lemma sync_outcome (nodeData : NodeData) (updates : list Update) (w : World) :
  ∃ w2 middle,
    try_catch (syncBody nodeData updates)
      (λ error, console_error "Failed to sync to text editor:" error) w
    = (Val tt, w2) ∧
    trace w2 = trace w ++ EvJSONParse (contents w) :: middle ∧
    graph w2 = graph w ∧
    ((middle = [] ∧ contents w2 = contents w) ∨
     (∃ e, middle = [EvConsoleError "Failed to sync to text editor:" e] ∧
           contents w2 = contents w) ∨
     (∃ parsed nodeToUpdate path parsed',
        middle = [EvSetContents (contents w2) false] ∧
        JSON.parse (contents w) = Val parsed ∧
        find_node (node_id nodeData) (nodes (graph w)) = Some nodeToUpdate ∧
        node_path nodeToUpdate = Some path ∧
        applyUpdates parsed path (node_text nodeToUpdate) updates = Val parsed' ∧
        JSON.stringify parsed' = Some (contents w2))).
Proof.
  unfold try_catch. rewrite syncBody_run.
  destruct (JSON.parse (contents w)) as [parsed|e] eqn:Hparse.
  2: { eexists _, [_]. split; [reflexivity|]. cbn.
       rewrite <- app_assoc. repeat split. right. left. eauto. }
  destruct (find_node (node_id nodeData) (nodes (graph w))) as [n|] eqn:Hfind.
  2: { eexists _, []. split; [reflexivity|]. cbn. auto. }
  destruct (node_path n) as [path|] eqn:Hpath.
  2: { eexists _, []. split; [reflexivity|]. cbn. auto. }
  destruct (applyUpdates parsed path (node_text n) updates) as [parsed'|e] eqn:Hpatch.
  2: { eexists _, [_]. split; [reflexivity|]. cbn.
       rewrite <- app_assoc. repeat split. right. left. eauto. }
  destruct (JSON.stringify parsed') as [updatedJson|] eqn:Hjson.
  2: { eexists _, []. split; [reflexivity|]. cbn. auto. }
  eexists _, [_]. split; [reflexivity|]. cbn.
  rewrite <- app_assoc. repeat split. right. right.
  exists parsed, n, path, parsed'. auto 10.
Qed.

(** X10. In every world the save handler completes normally, and the
    calls it makes are either none, in which case the stores are left as
    they are, or: the store action, one parse of the document text, then
    at most one of a write to the document store and a report to the
    console, the re-read of the node, and the scheduling of the leave of
    edit mode. The document text changes only by the write, and the
    text written is the serialisation of the patched parse of the old
    text. *)
Theorem handleSaveClick_calls
  (updateNodeValues : option (string → list Update → GraphState → GraphState))
  (w : World) :
  ∃ w' calls,
    handleSaveClick updateNodeValues w = (Val tt, w') ∧
    trace w' = trace w ++ calls ∧
    ((calls = [] ∧ contents w' = contents w ∧ graph w' = graph w) ∨
     ∃ update nodeData middle,
       updateNodeValues = Some update ∧
       selectedNode (graph w) = Some nodeData ∧
       let updates := computeUpdates (node_text nodeData) (editFields w) in
       let stored := update (node_id nodeData) updates (graph w) in
       updates ≠ [] ∧
       calls =
         EvUpdateNodeValues (node_id nodeData) updates ::
         EvJSONParse (contents w) ::
         middle ++ refresh_events (node_id nodeData) (nodes stored) ++
         [EvSetTimeout (CbSetIsEditing false) 100] ∧
       nodes (graph w') = nodes stored ∧
       ((middle = [] ∧ contents w' = contents w) ∨
        (∃ e, middle = [EvConsoleError "Failed to sync to text editor:" e] ∧
              contents w' = contents w) ∨
        (∃ parsed nodeToUpdate path parsed',
           middle = [EvSetContents (contents w') false] ∧
           JSON.parse (contents w) = Val parsed ∧
           find_node (node_id nodeData) (nodes stored) = Some nodeToUpdate ∧
           node_path nodeToUpdate = Some path ∧
           applyUpdates parsed path (node_text nodeToUpdate) updates = Val parsed' ∧
           JSON.stringify parsed' = Some (contents w')))).
Proof.
  destruct (selectedNode (graph w)) as [nodeData|] eqn:Hsel.
  2: { exists w, []. rewrite app_nil_r.
       split; [unfold handleSaveClick, bind, gets; now rewrite Hsel | auto]. }
  destruct (computeUpdates (node_text nodeData) (editFields w)) as [|u us] eqn:Hupd.
  { exists (set_isEditing false w), []. rewrite app_nil_r.
    split; [unfold handleSaveClick, bind, gets; now rewrite Hsel, Hupd | auto]. }
  destruct updateNodeValues as [update|].
  2: { exists (set_isEditing false w), []. rewrite app_nil_r.
       split; [unfold handleSaveClick, bind, gets; now rewrite Hsel, Hupd | auto]. }
  assert (Hne : computeUpdates (node_text nodeData) (editFields w) ≠ [])
    by (rewrite Hupd; discriminate).
  rewrite (handleSaveClick_nonempty update w nodeData Hsel Hne).
  clear Hupd u us. cbv zeta.
  set (updates := computeUpdates (node_text nodeData) (editFields w)) in *.
  set (stored := update (node_id nodeData) updates (graph w)).
  set (w1 := set_graph stored (log (EvUpdateNodeValues (node_id nodeData) updates) w)).
  destruct (sync_outcome nodeData updates w1)
    as (w2 & middle & Hsync & Ht2 & Hg2 & Hcases).
  unfold bind at 1. rewrite Hsync.
  destruct (after_sync_run nodeData w2) as (w' & Hrun & Hc & Hn & Ht & _).
  exists w'. eexists. split; [exact Hrun|].
  rewrite Ht, Ht2, Hn, Hg2, Hc. subst w1. cbn [trace log set_graph graph contents].
  split; [rewrite <- !app_assoc; cbn [app]; reflexivity|].
  right. exists update, nodeData, middle.
  split; [reflexivity|]. split; [reflexivity|]. split; [exact Hne|].
  split; [reflexivity|]. split; [reflexivity|].
  cbn [contents set_graph log graph] in Hcases.
  exact Hcases.
Qed.

(** ** Editing and cancelling *)

(** The parts of the world a field change leaves alone. *)
Lemma field_changes_frame (changes : list (string * string)) (w : World) :
  let w' := foldl (λ w c, run (handleFieldChange (fst c) (snd c)) w) w changes in
  graph w' = graph w ∧ contents w' = contents w ∧ trace w' = trace w ∧
  timers w' = timers w ∧ refreshKey w' = refreshKey w ∧
  codeRefreshKey w' = codeRefreshKey w ∧ isEditing w' = isEditing w.
Proof.
  revert w. induction changes as [|c changes IH]; intros w; [cbn; auto 10|].
  cbn [foldl]. destruct (IH (run (handleFieldChange (fst c) (snd c)) w))
    as (Hg & Hc & Ht & Htm & Hr & Hcr & He).
  cbv zeta. rewrite Hg, Hc, Ht, Htm, Hr, Hcr, He. cbn. auto 10.
Qed.

(** X11. Entering edit mode, changing fields any number of times and
    cancelling touches neither store: no call is made, the node store
    and the document text are as before, the session is discarded and
    the component is back in view mode. *)
Theorem edit_cancel_frame (changes : list (string * string)) (w : World) :
  let edited :=
    foldl (λ w c, run (handleFieldChange (fst c) (snd c)) w)
      (run initEditFields (run handleEditClick w)) changes in
  let w' := run handleCancelClick edited in
  graph w' = graph w ∧ contents w' = contents w ∧ trace w' = trace w ∧
  timers w' = timers w ∧ refreshKey w' = refreshKey w ∧
  codeRefreshKey w' = codeRefreshKey w ∧
  isEditing w' = false ∧ editFields w' = ∅.
Proof.
  cbv zeta.
  destruct (field_changes_frame changes (run initEditFields (run handleEditClick w)))
    as (Hg & Hc & Ht & Htm & Hr & Hcr & _).
  set (edited := foldl _ _ changes) in *.
  assert (Hinit : ∀ w0, graph (run initEditFields w0) = graph w0 ∧
                        contents (run initEditFields w0) = contents w0 ∧
                        trace (run initEditFields w0) = trace w0 ∧
                        timers (run initEditFields w0) = timers w0 ∧
                        refreshKey (run initEditFields w0) = refreshKey w0 ∧
                        codeRefreshKey (run initEditFields w0) = codeRefreshKey w0).
  { intros w0. unfold run, initEditFields.
    destruct (isEditing w0), (selectedNode (graph w0)); cbn; auto 10. }
  destruct (Hinit (run handleEditClick w)) as (Hg' & Hc' & Ht' & Htm' & Hr' & Hcr').
  assert (Hcancel : run handleCancelClick edited =
                    set_editFields ∅ (set_isEditing false edited)) by reflexivity.
  rewrite Hcancel. cbn.
  rewrite Hg, Hc, Ht, Htm, Hr, Hcr, Hg', Hc', Ht', Htm', Hr', Hcr'.
  cbn. auto 10.
Qed.

(** ** Reading a path text back *)

(** The text after the dollar sign. *)
Lemma jsonPathToString_brackets (p : list segment) :
  jsonPathToString (Some p) =
  "$" +:+ foldr String.append EmptyString (map bracketed p).
Proof.
  destruct p as [|seg p]; [reflexivity|]. unfold jsonPathToString.
  change ("$[" +:+ join "][" (map seg_text (seg :: p)) +:+ "]")
    with ("$" +:+ ("[" +:+ join "][" (map seg_text (seg :: p)) +:+ "]")).
  f_equal. change (map seg_text (seg :: p)) with (seg_text seg :: map seg_text p).
  rewrite join_bracketed. unfold bracketed.
  change (seg_text seg :: map seg_text p) with (map seg_text (seg :: p)).
  now rewrite map_map.
Qed.

Lemma brackets_cons (seg : segment) (p : list segment) :
  foldr String.append EmptyString (map bracketed (seg :: p)) =
  String "[" (seg_text seg +:+
              String "]" (foldr String.append EmptyString (map bracketed p))).
Proof.
  cbn [map foldr]. unfold bracketed.
  change ("[" +:+ seg_text seg +:+ "]") with (String "[" (seg_text seg +:+ "]")).
  rewrite string_app_cons. f_equal.
  now rewrite string_app_assoc.
Qed.

Lemma quoted_app (s r : string) :
  quoted s +:+ r = String JSON.dquote (s +:+ String JSON.dquote r).
Proof.
  unfold quoted. now rewrite !string_app_cons, string_app_assoc.
Qed.

(** Two texts that agree, each a run of characters of one sort followed
    by a delimiter of another sort, agree on the run and on the rest. *)
Lemma app_delimiter_inj (P : ascii → Prop) (c : ascii) (a a' x y : string) :
  Forall P (list_ascii_of_string a) →
  Forall P (list_ascii_of_string a') →
  ¬ P c →
  a +:+ String c x = a' +:+ String c y → a = a' ∧ x = y.
Proof.
  intros Ha Ha' Hc. revert a' Ha'.
  induction a as [|h a IH]; intros [|h' a'] Ha' Heq.
  - injection Heq as ->. auto.
  - rewrite string_app_cons in Heq. injection Heq as -> _.
    cbn in Ha'. apply Forall_cons in Ha' as [? _]. contradiction.
  - rewrite string_app_cons in Heq. injection Heq as -> _.
    cbn in Ha. apply Forall_cons in Ha as [? _]. contradiction.
  - rewrite !string_app_cons in Heq. injection Heq as -> Heq.
    cbn in Ha, Ha'. apply Forall_cons in Ha as [_ Ha].
    apply Forall_cons in Ha' as [_ Ha'].
    destruct (IH Ha a' Ha' Heq) as [-> ->]. auto.
Qed.

Lemma string_of_uint_digits (d : Decimal.uint) :
  Forall (λ c, c ≠ "]"%char ∧ c ≠ JSON.dquote)
    (list_ascii_of_string (NilEmpty.string_of_uint d)).
Proof.
  induction d; cbn; constructor; try exact IHd; split; discriminate.
Qed.

Lemma digits_of_digits (i : N) :
  Forall (λ c, c ≠ "]"%char ∧ c ≠ JSON.dquote) (list_ascii_of_string (digits_of i)).
Proof.
  unfold digits_of, NilZero.string_of_uint.
  destruct (N.to_uint i); try apply string_of_uint_digits.
  cbn. constructor; [split; discriminate | constructor].
Qed.

Lemma digits_of_inj (i j : N) : digits_of i = digits_of j → i = j.
Proof.
  intros H. assert (Hi := digits_of_denote i). rewrite H, digits_of_denote in Hi.
  congruence.
Qed.

(** X12. The path text can be read back when no string segment holds a
    double quote: two such paths with the same text are the same path,
    segment by segment, indices and keys told apart. *)
Theorem jsonPathToString_inj (p q : list segment) :
  Forall quote_free p → Forall quote_free q →
  jsonPathToString (Some p) = jsonPathToString (Some q) → p = q.
Proof.
  intros Hp Hq Heq. rewrite !jsonPathToString_brackets in Heq.
  assert (Htext : foldr String.append EmptyString (map bracketed p) =
                  foldr String.append EmptyString (map bracketed q))
    by (injection Heq as Heq; exact Heq).
  clear Heq. revert q Hq Htext.
  induction Hp as [|seg p Hseg Hp IH]; intros [|seg' q] Hq Heq; try reflexivity.
  - rewrite brackets_cons in Heq. cbn in Heq. discriminate.
  - rewrite brackets_cons in Heq. cbn in Heq. discriminate.
  - rewrite !brackets_cons in Heq. injection Heq as Heq.
    apply Forall_cons in Hq as [Hseg' Hq].
    destruct seg as [s|i], seg' as [s'|j]; cbn [seg_text] in Heq.
    + rewrite !quoted_app in Heq. injection Heq as Heq.
      assert (Hs : Forall (λ c, c ≠ JSON.dquote) (list_ascii_of_string s))
        by (apply Forall_forall; intros c Hc ->; now apply Hseg).
      assert (Hs' : Forall (λ c, c ≠ JSON.dquote) (list_ascii_of_string s'))
        by (apply Forall_forall; intros c Hc ->; now apply Hseg').
      destruct (app_delimiter_inj (λ c, c ≠ JSON.dquote) JSON.dquote s s' _ _
                  Hs Hs' (λ H, H eq_refl) Heq) as [-> Hrest].
      injection Hrest as Hrest. f_equal. now apply IH.
    + exfalso. rewrite quoted_app in Heq.
      assert (Hd := digits_of_digits j).
      destruct (digits_of j) as [|c r]; [discriminate|].
      rewrite string_app_cons in Heq. injection Heq as <- _.
      cbn in Hd. apply Forall_cons in Hd as [[_ Hd] _]. now apply Hd.
    + exfalso. rewrite quoted_app in Heq.
      assert (Hd := digits_of_digits i).
      destruct (digits_of i) as [|c r]; [discriminate|].
      rewrite string_app_cons in Heq. injection Heq as -> _.
      cbn in Hd. apply Forall_cons in Hd as [[_ Hd] _]. now apply Hd.
    + assert (Hi : Forall (λ c, c ≠ "]"%char) (list_ascii_of_string (digits_of i)))
        by (eapply Forall_impl; [apply digits_of_digits|]; now intros c [? _]).
      assert (Hj : Forall (λ c, c ≠ "]"%char) (list_ascii_of_string (digits_of j)))
        by (eapply Forall_impl; [apply digits_of_digits|]; now intros c [? _]).
      destruct (app_delimiter_inj (λ c, c ≠ "]"%char) "]"%char
                  (digits_of i) (digits_of j) _ _ Hi Hj (λ H, H eq_refl) Heq)
        as [Hdigits Hrest].
      apply digits_of_inj in Hdigits as ->. f_equal. now apply IH.
Qed.

(** The path of the example against itself. *)
Lemma jsonPathToString_inj_witness :
  [SKey "customer"; SIdx 0; SKey "name"] = [SKey "customer"; SIdx 0; SKey "name"].
Proof.
  apply jsonPathToString_inj.
  - repeat constructor; vm_compute; intros H;
      repeat (apply elem_of_cons in H as [H|H]; [discriminate|]); inversion H.
  - repeat constructor; vm_compute; intros H;
      repeat (apply elem_of_cons in H as [H|H]; [discriminate|]); inversion H.
  - reflexivity.
Defined.

(** A double quote inside a key makes the text ambiguous: one segment
    can read as two. *)
Lemma jsonPathToString_ambiguous :
  jsonPathToString
    (Some [SKey ("a" +:+ String JSON.dquote "][" +:+ String JSON.dquote "b")]) =
  jsonPathToString (Some [SKey "a"; SKey "b"]).
Proof. reflexivity. Qed.
